(** * QtGLVideoItem (ext/qt/qtitem.cc): buffer hand-off and texture tracking

    A shallow embedding of the QtQuick video item of gst-plugins-good:
    the producer-facing proxy [QtGLVideoItemInterface], the private state
    [QtGLVideoItemPrivate], the paint entry point [updatePaintNode] with its
    two queues of buffers whose texture may still be in use, the display-size
    computation [_calculate_par], the pointer mapping
    [mapPointToStreamSize] with the mouse, hover and wheel handlers that use
    it, the GL set-up ([onSceneGraphInitialized], [initWinSys],
    [handleWindowChanged]) and the destructor.

    Conventions.
    - C integers are [Z] with the conversions between [gint], [guint] and
      [guint64] written out ([to_gint], [to_guint], [to_guint64]).
    - [gdouble]/[qreal] values are exact rationals ([Q]); results about them
      are stated up to [Qeq].
    - A [GstBuffer *] is the identity of the buffer (a [nat]); [NULL] is
      [None].
    - Every [gst_buffer_ref]/[gst_buffer_unref] performed by this file
      (directly or inside [gst_buffer_replace]) is recorded, newest first,
      in the [refs] log of the [World].
    - GStreamer and Qt functions that live outside this file are variables
      of the section [Item]. *)

From Stdlib Require Import ZArith QArith Qround List Bool Lia Lqa.
From Stdlib Require String.
Import String.StringSyntax.
Delimit Scope string_scope with string.
Import ListNotations.

Local Open Scope Z_scope.

(** ** Machine integers *)

Definition G_MAXINT : Z := 2 ^ 31 - 1.
Definition G_MAXUINT64 : Z := 2 ^ 64 - 1.

(** Conversion to [guint] (32 bits, modular). *)
Definition to_guint (z : Z) : Z := z mod 2 ^ 32.

(** Conversion to [guint64] (64 bits, modular; sign-extends a [gint]). *)
Definition to_guint64 (z : Z) : Z := z mod 2 ^ 64.

(** Conversion to [gint] (32 bits, two's complement). *)
Definition to_gint (z : Z) : Z := (z + 2 ^ 31) mod 2 ^ 32 - 2 ^ 31.

(** Conversion of a [double] to [gint]: truncation toward zero. *)
Definition gint_of_double (q : Q) : Z := Z.quot (Qnum q) (Z.pos (Qden q)).

(** [gst_util_uint64_scale_int (val, num, denom)] of GStreamer core:
    [val * num / denom] on [guint64], [G_MAXUINT64] on overflow or when the
    preconditions [num >= 0], [denom > 0] fail. *)
Definition gst_util_uint64_scale_int (val num denom : Z) : Z :=
  if (denom <=? 0) || (num <? 0) then G_MAXUINT64
  else
    let r := val * num / denom in
    if G_MAXUINT64 <? r then G_MAXUINT64 else r.

(** [CLAMP(x, low, high)] of GLib:
    [((x) > (high)) ? (high) : (((x) < (low)) ? (low) : (x))]. *)
Definition CLAMP (x low high : Q) : Q :=
  if Qlt_le_dec high x then high
  else if Qlt_le_dec x low then low
  else x.

(** Equality of two points with rational coordinates. *)
Definition point_eq (a b : Q * Q) : Prop :=
  (fst a == fst b)%Q /\ (snd a == snd b)%Q.

(** ** Data *)

(** A [GstBuffer *]: the identity of a reference-counted video frame. *)
Definition GstBuffer : Type := nat.

(** A GL context, display or element: an opaque object identity. *)
Definition Handle : Type := nat.

Definition GstBuffer_eq_dec : forall a b : option GstBuffer, {a = b} + {a <> b}.
Proof. decide equality. apply Nat.eq_dec. Defined.

Definition option_eq_dec_handle : forall a b : option Handle, {a = b} + {a <> b}.
Proof. decide equality. apply Nat.eq_dec. Defined.

(** Reference-count traffic on buffers. *)
Inductive RefEvent : Type :=
| Ref (b : GstBuffer)
| Unref (b : GstBuffer).

Definition RefLog : Type := list RefEvent.

(** The part of [GstVideoInfo] this file reads. *)
Record GstVideoInfo : Type := mkVideoInfo {
  vi_width : Z;   (* GST_VIDEO_INFO_WIDTH *)
  vi_height : Z;  (* GST_VIDEO_INFO_HEIGHT *)
  vi_par_n : Z;   (* GST_VIDEO_INFO_PAR_N *)
  vi_par_d : Z    (* GST_VIDEO_INFO_PAR_D *)
}.

Record GstVideoRectangle : Type := mkRect {
  rect_x : Z;
  rect_y : Z;
  rect_w : Z;
  rect_h : Z
}.

(** ** Reference counting helpers *)

Definition gst_buffer_unref (b : GstBuffer) (l : RefLog) : RefLog := Unref b :: l.
Definition gst_buffer_ref (b : GstBuffer) (l : RefLog) : RefLog := Ref b :: l.

(** [gst_buffer_replace (&slot, new)]: nothing when the slot already holds
    [new]; otherwise [new] is reffed, the slot is overwritten and the old
    buffer is unreffed. Returns the new slot contents and the log. *)
Definition gst_buffer_replace (slot new : option GstBuffer) (l : RefLog)
  : option GstBuffer * RefLog :=
  if GstBuffer_eq_dec slot new then (slot, l)
  else
    let l1 := match new with Some b => gst_buffer_ref b l | None => l end in
    let l2 := match slot with Some b => gst_buffer_unref b l1 | None => l1 end in
    (new, l2).

(** [while ((tmp = g_queue_pop_head (q))) gst_buffer_unref (tmp);] *)
Fixpoint unref_queue (q : list GstBuffer) (l : RefLog) : RefLog :=
  match q with
  | [] => l
  | tmp_buffer :: q' => unref_queue q' (gst_buffer_unref tmp_buffer l)
  end.

(** [while ((tmp = g_queue_pop_head (src))) g_queue_push_tail (dst, tmp);]
    returns the destination queue; the source queue ends empty. *)
Fixpoint move_queue (src dst : list GstBuffer) : list GstBuffer :=
  match src with
  | [] => dst
  | tmp_buffer :: src' => move_queue src' (dst ++ [tmp_buffer])
  end.

(** Number of [Ref] minus number of [Unref] events on [b]. *)
Fixpoint net_refs (b : GstBuffer) (l : RefLog) : Z :=
  match l with
  | [] => 0
  | Ref b' :: l' => (if Nat.eq_dec b' b then 1 else 0) + net_refs b l'
  | Unref b' :: l' => net_refs b l' - (if Nat.eq_dec b' b then 1 else 0)
  end.

(** The references a slot holding [slot] has on [g]: one or none. *)
Definition holds (slot : option GstBuffer) (g : GstBuffer) : Z :=
  match slot with
  | Some b => if Nat.eq_dec b g then 1 else 0
  | None => 0
  end.

(** Fixed caps, as values: a number names the contents of the caps, so that
    [gst_caps_is_equal_fixed] is equality. *)
Definition GstCaps : Type := nat.

Definition gst_caps_is_equal_fixed : forall a b : GstCaps, {a = b} + {a <> b} :=
  Nat.eq_dec.

(** ** State *)

(** [struct _QtGLVideoItemPrivate] (the mutex apart). *)
Record QtGLVideoItemPrivate : Type := mkPriv {
  force_aspect_ratio : bool;
  par_n : Z;
  par_d : Z;
  sink : option Handle;
  display_width : Z;
  display_height : Z;
  negotiated : bool;
  buffer : option GstBuffer;
  caps : option GstCaps;
  v_info : GstVideoInfo;
  initted : bool;
  display : option Handle;
  qt_context : option Handle;
  other_context : option Handle;
  context : option Handle;
  bound_buffers : list GstBuffer;
  potentially_unbound_buffers : list GstBuffer
}.

(** The [QtGLVideoItem] object: its private part and what it shows of the
    [QQuickItem] it derives from. *)
Record QtGLVideoItem : Type := mkItem {
  priv : QtGLVideoItemPrivate;
  m_openGlContextInitialized : bool;
  implicitWidth : Z;
  implicitHeight : Z;
  width : Q;            (* size().width(), boundingRect().width() *)
  height : Q;           (* size().height(), boundingRect().height() *)
  update_posted : nat   (* queued invocations of "update" *)
}.

(** The proxy's pointer ([qt_item], [false] is [NULL]), the item it points
    at, and the log of buffer reference counting. *)
Record World : Type := mkWorld {
  qt_item : bool;
  item : QtGLVideoItem;
  refs : RefLog
}.

(** *** Field updates *)

Definition set_force_aspect_ratio (v : bool) (p : QtGLVideoItemPrivate) :=
  mkPriv v (par_n p) (par_d p) (sink p) (display_width p) (display_height p)
    (negotiated p) (buffer p) (caps p) (v_info p) (initted p) (display p)
    (qt_context p) (other_context p) (context p) (bound_buffers p)
    (potentially_unbound_buffers p).

Definition set_par (n d : Z) (p : QtGLVideoItemPrivate) :=
  mkPriv (force_aspect_ratio p) n d (sink p) (display_width p) (display_height p)
    (negotiated p) (buffer p) (caps p) (v_info p) (initted p) (display p)
    (qt_context p) (other_context p) (context p) (bound_buffers p)
    (potentially_unbound_buffers p).

Definition set_sink (s : option Handle) (p : QtGLVideoItemPrivate) :=
  mkPriv (force_aspect_ratio p) (par_n p) (par_d p) s (display_width p)
    (display_height p) (negotiated p) (buffer p) (caps p) (v_info p) (initted p)
    (display p) (qt_context p) (other_context p) (context p) (bound_buffers p)
    (potentially_unbound_buffers p).

Definition set_display_size (dw dh : Z) (p : QtGLVideoItemPrivate) :=
  mkPriv (force_aspect_ratio p) (par_n p) (par_d p) (sink p) dw dh
    (negotiated p) (buffer p) (caps p) (v_info p) (initted p) (display p)
    (qt_context p) (other_context p) (context p) (bound_buffers p)
    (potentially_unbound_buffers p).

Definition set_negotiated (v : bool) (p : QtGLVideoItemPrivate) :=
  mkPriv (force_aspect_ratio p) (par_n p) (par_d p) (sink p) (display_width p)
    (display_height p) v (buffer p) (caps p) (v_info p) (initted p) (display p)
    (qt_context p) (other_context p) (context p) (bound_buffers p)
    (potentially_unbound_buffers p).

Definition set_buffer (b : option GstBuffer) (p : QtGLVideoItemPrivate) :=
  mkPriv (force_aspect_ratio p) (par_n p) (par_d p) (sink p) (display_width p)
    (display_height p) (negotiated p) b (caps p) (v_info p) (initted p)
    (display p) (qt_context p) (other_context p) (context p) (bound_buffers p)
    (potentially_unbound_buffers p).

Definition set_caps (c : option GstCaps) (p : QtGLVideoItemPrivate) :=
  mkPriv (force_aspect_ratio p) (par_n p) (par_d p) (sink p) (display_width p)
    (display_height p) (negotiated p) (buffer p) c (v_info p) (initted p)
    (display p) (qt_context p) (other_context p) (context p) (bound_buffers p)
    (potentially_unbound_buffers p).

Definition set_v_info (i : GstVideoInfo) (p : QtGLVideoItemPrivate) :=
  mkPriv (force_aspect_ratio p) (par_n p) (par_d p) (sink p) (display_width p)
    (display_height p) (negotiated p) (buffer p) (caps p) i (initted p)
    (display p) (qt_context p) (other_context p) (context p) (bound_buffers p)
    (potentially_unbound_buffers p).

Definition set_initted (v : bool) (p : QtGLVideoItemPrivate) :=
  mkPriv (force_aspect_ratio p) (par_n p) (par_d p) (sink p) (display_width p)
    (display_height p) (negotiated p) (buffer p) (caps p) (v_info p) v
    (display p) (qt_context p) (other_context p) (context p) (bound_buffers p)
    (potentially_unbound_buffers p).

Definition set_contexts (qt other ctx : option Handle) (p : QtGLVideoItemPrivate) :=
  mkPriv (force_aspect_ratio p) (par_n p) (par_d p) (sink p) (display_width p)
    (display_height p) (negotiated p) (buffer p) (caps p) (v_info p) (initted p)
    (display p) qt other ctx (bound_buffers p) (potentially_unbound_buffers p).

Definition set_queues (bound unbound : list GstBuffer) (p : QtGLVideoItemPrivate) :=
  mkPriv (force_aspect_ratio p) (par_n p) (par_d p) (sink p) (display_width p)
    (display_height p) (negotiated p) (buffer p) (caps p) (v_info p) (initted p)
    (display p) (qt_context p) (other_context p) (context p) bound unbound.

Definition with_priv (f : QtGLVideoItemPrivate -> QtGLVideoItemPrivate)
    (i : QtGLVideoItem) : QtGLVideoItem :=
  mkItem (f (priv i)) (m_openGlContextInitialized i) (implicitWidth i)
    (implicitHeight i) (width i) (height i) (update_posted i).

Definition with_item (f : QtGLVideoItem -> QtGLVideoItem) (w : World) : World :=
  mkWorld (qt_item w) (f (item w)) (refs w).

Definition with_refs (l : RefLog) (w : World) : World :=
  mkWorld (qt_item w) (item w) l.

(** The private state behind [qt_item->priv]. *)
Definition wpriv (w : World) : QtGLVideoItemPrivate := priv (item w).

Definition upd_priv (f : QtGLVideoItemPrivate -> QtGLVideoItemPrivate)
    (w : World) : World :=
  with_item (with_priv f) w.

(** *** The scene-graph node and its texture *)

(** Modelled from the spec: [GstQSGTexture] (gstqsgtexture.cc is not among
    the sources). The renderable texture object keeps the frame attached to
    it, whether that frame was actually bound to a live texture, and the
    caps. [getBuffer] hands out the attached frame (with a reference of its
    own, the duplicate reference that the paint code releases) and the bound
    flag; [setBuffer] attaches a frame, which is not bound yet; binding is
    done by the renderer. *)
Record GstQSGTexture : Type := mkTexture {
  tex_buffer : option GstBuffer;
  tex_was_bound : bool;
  tex_caps : option GstCaps
}.

Definition GstQSGTexture_new : GstQSGTexture := mkTexture None false None.

Definition tex_getBuffer (t : GstQSGTexture) : option GstBuffer * bool :=
  (tex_buffer t, tex_was_bound t).

Definition tex_setCaps (c : GstCaps) (t : GstQSGTexture) : GstQSGTexture :=
  mkTexture (tex_buffer t) (tex_was_bound t) (Some c).

Definition tex_setBuffer (b : option GstBuffer) (t : GstQSGTexture) : GstQSGTexture :=
  if GstBuffer_eq_dec (tex_buffer t) b then t
  else mkTexture b false (tex_caps t).

Definition tex_bind (t : GstQSGTexture) : GstQSGTexture :=
  match tex_buffer t with
  | Some _ => mkTexture (tex_buffer t) true (tex_caps t)
  | None => t
  end.

(** [QSGSimpleTextureNode]: the texture it owns and its rectangle. *)
Record QSGSimpleTextureNode : Type := mkNode {
  texture : GstQSGTexture;
  rect : GstVideoRectangle
}.

Definition QSGSimpleTextureNode_new : QSGSimpleTextureNode :=
  mkNode GstQSGTexture_new (mkRect 0 0 0 0).

(** The renderer draws the node: its texture gets bound. *)
Definition node_bind (n : QSGSimpleTextureNode) : QSGSimpleTextureNode :=
  mkNode (tex_bind (texture n)) (rect n).

(** The warnings of [setBuffer]'s early returns. *)
Inductive SetBufferWarning : Type :=
| ItemIsNull      (* "actual item is NULL. setBuffer call ignored" *)
| Unnegotiated.   (* "Got buffer on unnegotiated QtGLVideoItem. Dropping" *)

Definition set_initialized (v : bool) (i : QtGLVideoItem) : QtGLVideoItem :=
  mkItem (priv i) v (implicitWidth i) (implicitHeight i) (width i) (height i)
    (update_posted i).

Definition set_implicit_size (iw ih : Z) (i : QtGLVideoItem) : QtGLVideoItem :=
  mkItem (priv i) (m_openGlContextInitialized i) iw ih (width i) (height i)
    (update_posted i).

Definition set_size (wd ht : Q) (i : QtGLVideoItem) : QtGLVideoItem :=
  mkItem (priv i) (m_openGlContextInitialized i) (implicitWidth i)
    (implicitHeight i) wd ht (update_posted i).

Definition post_update (i : QtGLVideoItem) : QtGLVideoItem :=
  mkItem (priv i) (m_openGlContextInitialized i) (implicitWidth i)
    (implicitHeight i) (width i) (height i) (S (update_posted i)).

(** ** Reference instances of the external functions

    Used to run the item on concrete inputs. *)

(** Sample caps: 0 is not fixed; 1 is 320x240, 2 is 1920x1080, both with
    square pixels; 3 has zero dimensions; 4 is 1048576x1048576 with a pixel
    aspect ratio of 4095/1; 5 is not video. *)
Definition ref_caps_is_fixed (c : GstCaps) : bool :=
  negb (Nat.eqb c 0).

Definition ref_video_info_from_caps (c : GstCaps) : option GstVideoInfo :=
  match c with
  | 1%nat => Some (mkVideoInfo 320 240 1 1)
  | 2%nat => Some (mkVideoInfo 1920 1080 1 1)
  | 3%nat => Some (mkVideoInfo 0 0 1 1)
  | 4%nat => Some (mkVideoInfo 1048576 1048576 4095 1)
  | _ => None
  end.

(** The display ratio [(width * par_n * display_par_d) /
    (height * par_d * display_par_n)] in lowest terms; it fails when a side
    is not positive or does not fit a [gint]. *)
Definition ref_display_ratio (width_ height_ par_n_ par_d_ dpar_n dpar_d : Z)
  : option (Z * Z) :=
  let num := width_ * par_n_ * dpar_d in
  let den := height_ * par_d_ * dpar_n in
  if (num <=? 0) || (den <=? 0) then None
  else
    let g := Z.gcd num den in
    if (G_MAXINT <? num / g) || (G_MAXINT <? den / g) then None
    else Some (num / g, den / g).

(** Centering with scaling: the largest rectangle of the source's ratio
    inside the destination, centered. *)
Definition ref_center_rect (src dst : GstVideoRectangle) : GstVideoRectangle :=
  if (rect_h src =? 0) || (rect_h dst =? 0) then mkRect 0 0 0 0
  else
    let src_ratio := (inject_Z (rect_w src) / inject_Z (rect_h src))%Q in
    let dst_ratio := (inject_Z (rect_w dst) / inject_Z (rect_h dst))%Q in
    if Qlt_le_dec dst_ratio src_ratio then
      let h := gint_of_double (inject_Z (rect_w dst) / src_ratio)%Q in
      mkRect (rect_x dst) (rect_y dst + Z.quot (rect_h dst - h) 2) (rect_w dst) h
    else if Qlt_le_dec src_ratio dst_ratio then
      let w_ := gint_of_double (inject_Z (rect_h dst) * src_ratio)%Q in
      mkRect (rect_x dst + Z.quot (rect_w dst - w_) 2) (rect_y dst) w_ (rect_h dst)
    else dst.

Section Item.

(** ** External GStreamer API *)

(** [gst_caps_is_fixed]. *)
Variable gst_caps_is_fixed : GstCaps -> bool.

(** [gst_video_info_from_caps]: [None] when it returns [FALSE]. *)
Variable gst_video_info_from_caps : GstCaps -> option GstVideoInfo.

(** [gst_video_calculate_display_ratio (&num, &den, width, height, par_n,
    par_d, display_par_n, display_par_d)] on [guint] arguments: [None] when
    it returns [FALSE], otherwise the two [guint] results. *)
Variable gst_video_calculate_display_ratio :
  Z -> Z -> Z -> Z -> Z -> Z -> option (Z * Z).

(** [gst_video_sink_center_rect (src, dst, &result, TRUE)]. *)
Variable gst_video_sink_center_rect :
  GstVideoRectangle -> GstVideoRectangle -> GstVideoRectangle.

(** ** The item *)

(** [QtGLVideoItem::QtGLVideoItem]: [g_new0] state with the default
    properties; [display] is what [gst_qt_get_gl_display] returned. The proxy
    is created pointing at the item. *)
Definition QtGLVideoItem_new (disp : option Handle) : World :=
  mkWorld true
    (mkItem
       (mkPriv true 0 1 None 0 0 false None None (mkVideoInfo 0 0 0 0) false
          disp None None None [] [])
       false 0 0 0%Q 0%Q 0%nat)
    [].

(** [QtGLVideoItem::setDAR]. *)
Definition item_setDAR (num den : Z) (w : World) : World :=
  upd_priv (set_par num den) w.

(** [QtGLVideoItem::setForceAspectRatio]. *)
Definition item_setForceAspectRatio (v : bool) (w : World) : World :=
  upd_priv (set_force_aspect_ratio v) w.

(** [_reset]: clear the current buffer and the caps, unset [negotiated] and
    [initted], then drain and unref both queues, potentially-unbound first. *)
Definition _reset (w : World) : World :=
  let p := wpriv w in
  let '(b, l) := gst_buffer_replace (buffer p) None (refs w) in
  let l := unref_queue (potentially_unbound_buffers p) l in
  let l := unref_queue (bound_buffers p) l in
  with_refs l
    (upd_priv (fun p =>
       set_queues [] []
         (set_initted false (set_negotiated false (set_caps None (set_buffer b p)))))
       w).

(** *** Painting *)

(** The handling of the texture's previous buffer in [updatePaintNode]
    (lines 259-288), the tracker's exchange: [old_buffer] and [was_bound]
    are what [tex->getBuffer (&was_bound)] returned. *)
Definition exchange (old_buffer : GstBuffer) (was_bound : bool) (w : World) : World :=
  let p := wpriv w in
  if GstBuffer_eq_dec (Some old_buffer) (buffer p) then
    (* same buffer *)
    with_refs (gst_buffer_unref old_buffer (refs w)) w
  else if negb was_bound then
    with_refs (gst_buffer_unref old_buffer (refs w)) w
  else
    (* unref all buffers that were previously not bound anymore *)
    let l := unref_queue (potentially_unbound_buffers p) (refs w) in
    let unbound := [] in
    (* move previous bound buffers to the next queue *)
    let unbound := move_queue (bound_buffers p) unbound in
    let bound := [] ++ [old_buffer] in
    with_refs l (upd_priv (set_queues bound unbound) w).

(** [QQuickItem::boundingRect] converted field by field to [gint]. *)
Definition boundingRect (w : World) : GstVideoRectangle :=
  mkRect 0 0 (gint_of_double (width (item w))) (gint_of_double (height (item w))).

(** [QtGLVideoItem::updatePaintNode]. The activation of the GL context has
    no effect on the state kept here. *)
Definition updatePaintNode (oldNode : option QSGSimpleTextureNode) (w : World)
  : option QSGSimpleTextureNode * World :=
  if negb (m_openGlContextInitialized (item w)) then (oldNode, w)
  else
    let p := wpriv w in
    match caps p with
    | None => (None, w)
    | Some c =>
      let texNode :=
        match oldNode with
        | Some n => n
        | None => QSGSimpleTextureNode_new
        end in
      let tex := texture texNode in
      let '(old_buffer, was_bound) := tex_getBuffer tex in
      let w1 :=
        match old_buffer with
        | Some ob => exchange ob was_bound w
        | None => w
        end in
      let tex := tex_setBuffer (buffer (wpriv w1)) (tex_setCaps c tex) in
      let result :=
        if force_aspect_ratio p then
          (* src.x and src.y are left unset by the source *)
          gst_video_sink_center_rect
            (mkRect 0 0 (display_width p) (display_height p)) (boundingRect w)
        else boundingRect w in
      (Some (mkNode tex result), w1)
    end.

(** [QtGLVideoItem::fitStreamToAllocatedSize]. *)
Definition fitStreamToAllocatedSize (w : World) : GstVideoRectangle :=
  let p := wpriv w in
  if force_aspect_ratio p then
    gst_video_sink_center_rect
      (mkRect 0 0 (display_width p) (display_height p))
      (mkRect 0 0 (gint_of_double (width (item w))) (gint_of_double (height (item w))))
  else
    mkRect 0 0 (gint_of_double (width (item w))) (gint_of_double (height (item w))).

(** [QtGLVideoItem::mapPointToStreamSize]. *)
Definition mapPointToStreamSize (pos : Q * Q) (w : World) : Q * Q :=
  let result := fitStreamToAllocatedSize w in
  let stream_width := inject_Z (vi_width (v_info (wpriv w))) in
  let stream_height := inject_Z (vi_height (v_info (wpriv w))) in
  let x := fst pos in
  let y := snd pos in
  (* from display coordinates to stream coordinates *)
  let stream_x :=
    if 0 <? rect_w result
    then ((x - inject_Z (rect_x result)) / inject_Z (rect_w result) * stream_width)%Q
    else 0%Q in
  (* clip to stream size *)
  let stream_x := CLAMP stream_x 0%Q stream_width in
  (* same for y-axis *)
  let stream_y :=
    if 0 <? rect_h result
    then ((y - inject_Z (rect_y result)) / inject_Z (rect_h result) * stream_height)%Q
    else 0%Q in
  let stream_y := CLAMP stream_y 0%Q stream_height in
  (stream_x, stream_y).

(** [QtGLVideoItem::onSceneGraphInitialized]: [win] is [window()] and its
    [openglContext()]; [wrap] is what [gst_qt_get_gl_wrapcontext] returns
    and writes to [other_context] and [context]. *)
Definition onSceneGraphInitialized (win : option (option Handle))
    (wrap : bool * option Handle * option Handle) (w : World) : World :=
  match win with
  | None => w
  | Some ctx =>
    if option_eq_dec_handle (qt_context (wpriv w)) ctx then w
    else
      let p := wpriv w in
      let w1 := upd_priv (set_contexts ctx (other_context p) (context p)) w in
      match ctx with
      | None => w1   (* g_assert_not_reached *)
      | Some _ =>
        let '(ok, other, cx) := wrap in
        with_item (set_initialized ok) (upd_priv (set_contexts ctx other cx) w1)
      end
  end.

(** *** Negotiation *)

(** The call of [gst_video_calculate_display_ratio] in [_calculate_par],
    with the arguments the source prepares for it. *)
Definition display_ratio_of (p : QtGLVideoItemPrivate) (info : GstVideoInfo)
  : option (Z * Z) :=
  let width_ := vi_width info in
  let height_ := vi_height info in
  let par_n_ := vi_par_n info in
  let par_d_ := vi_par_d info in
  let par_n_ := if par_n_ =? 0 then 1 else par_n_ in
  (* get display's PAR *)
  let '(display_par_n, display_par_d) :=
    if negb (par_n p =? 0) && negb (par_d p =? 0)
    then (par_n p, par_d p)
    else (1, 1) in
  gst_video_calculate_display_ratio (to_guint width_) (to_guint height_)
    (to_guint par_n_) (to_guint par_d_) (to_guint display_par_n)
    (to_guint display_par_d).

(** [(guint) gst_util_uint64_scale_int (a, b, c)] stored in a [gint] field,
    for a [gint] [a] and [guint] [b], [c]. *)
Definition scaled_gint (a b c : Z) : Z :=
  to_gint (to_guint (gst_util_uint64_scale_int (to_guint64 a) (to_gint b) (to_gint c))).

(** [_calculate_par]: [false] and no change when the ratio cannot be
    computed; otherwise the implicit size and the display size are set. *)
Definition _calculate_par (w : World) (info : GstVideoInfo) : bool * World :=
  let width_ := vi_width info in
  let height_ := vi_height info in
  match display_ratio_of (wpriv w) info with
  | None => (false, w)
  | Some (display_ratio_num, display_ratio_den) =>
    let w := with_item (set_implicit_size width_ height_) w in
    if to_guint height_ mod display_ratio_den =? 0 then
      (* keeping video height *)
      (true, upd_priv (set_display_size
                         (scaled_gint height_ display_ratio_num display_ratio_den)
                         height_) w)
    else if to_guint width_ mod display_ratio_num =? 0 then
      (* keeping video width *)
      (true, upd_priv (set_display_size
                         width_
                         (scaled_gint width_ display_ratio_den display_ratio_num)) w)
    else
      (* approximating while keeping video height *)
      (true, upd_priv (set_display_size
                         (scaled_gint height_ display_ratio_num display_ratio_den)
                         height_) w)
  end.

(** ** The proxy, [QtGLVideoItemInterface] *)

(** [QtGLVideoItemInterface::invalidateRef]. *)
Definition invalidateRef (w : World) : World :=
  mkWorld false (item w) (refs w).

(** [QtGLVideoItemInterface::setSink]. *)
Definition setSink (s : option Handle) (w : World) : World :=
  if negb (qt_item w) then w
  else upd_priv (set_sink s) w.

(** [QtGLVideoItemInterface::setBuffer]: the warning logged, if any, and the
    new state. *)
Definition setBuffer (b : GstBuffer) (w : World) : option SetBufferWarning * World :=
  if negb (qt_item w) then (Some ItemIsNull, w)
  else if negb (negotiated (wpriv w)) then (Some Unnegotiated, w)
  else
    let '(slot, l) := gst_buffer_replace (buffer (wpriv w)) (Some b) (refs w) in
    (None, with_refs l (with_item post_update (upd_priv (set_buffer slot) w))).

(** [QtGLVideoItemInterface::initWinSys]: [new_context] is the result of
    [gst_gl_context_new], [created] that of [gst_gl_context_create]. *)
Definition initWinSys (new_context : option Handle) (created : bool) (w : World)
  : bool * World :=
  if negb (qt_item w) then (false, w)
  else
    let p := wpriv w in
    match display p, qt_context p, other_context p, context p with
    | Some _, Some _, Some _, Some _ => (true, w)  (* already have the state *)
    | None, _, _, _ => (false, w)
    | _, _, None, _ => (false, w)
    | _, _, _, _ =>
      let w1 := upd_priv (set_contexts (qt_context p) (other_context p) new_context) w in
      match new_context with
      | None => (false, w1)
      | Some _ => (created, w1)
      end
    end.

(** [priv->caps && gst_caps_is_equal_fixed (priv->caps, caps)]. *)
Definition same_caps (cur : option GstCaps) (c : GstCaps) : bool :=
  match cur with
  | Some c0 => if gst_caps_is_equal_fixed c0 c then true else false
  | None => false
  end.

(** [QtGLVideoItemInterface::setCaps]. *)
Definition setCaps (c : GstCaps) (w : World) : bool * World :=
  if negb (gst_caps_is_fixed c) then (false, w)
  else if negb (qt_item w) then (false, w)
  else if same_caps (caps (wpriv w)) c then (true, w)
  else
    match gst_video_info_from_caps c with
    | None => (false, w)
    | Some info =>
      let w1 := _reset w in
      let w2 := upd_priv (set_caps (Some c)) w1 in
      let '(ok, w3) := _calculate_par w2 info in
      if negb ok then (false, w3)
      else (true, upd_priv (fun p => set_negotiated true (set_v_info info p)) w3)
    end.

(** [getQtContext], [getContext], [getDisplay]. *)
Definition getQtContext (w : World) : option Handle :=
  if negb (qt_item w) then None else other_context (wpriv w).

Definition getContext (w : World) : option Handle :=
  if negb (qt_item w) then None else context (wpriv w).

Definition getDisplay (w : World) : option Handle :=
  if negb (qt_item w) then None else display (wpriv w).

(** [QtGLVideoItemInterface::setDAR] and [getDAR] (what is written through
    the two pointers, if anything). *)
Definition setDAR (num den : Z) (w : World) : World :=
  if negb (qt_item w) then w else item_setDAR num den w.

Definition getDAR (w : World) : option (Z * Z) :=
  if negb (qt_item w) then None else Some (par_n (wpriv w), par_d (wpriv w)).

(** [QtGLVideoItemInterface::setForceAspectRatio] and
    [getForceAspectRatio]. *)
Definition setForceAspectRatio (v : bool) (w : World) : World :=
  if negb (qt_item w) then w else item_setForceAspectRatio v w.

Definition getForceAspectRatio (w : World) : bool :=
  if negb (qt_item w) then false else force_aspect_ratio (wpriv w).

(** ** Runs *)

(** The calls a producer can make on the proxy. *)
Inductive ProxyCall : Type :=
| CallSetSink (s : option Handle)
| CallSetBuffer (b : GstBuffer)
| CallInitWinSys (new_context : option Handle) (created : bool)
| CallSetCaps (c : GstCaps)
| CallGetQtContext
| CallGetContext
| CallGetDisplay
| CallSetDAR (num den : Z)
| CallGetDAR
| CallSetForceAspectRatio (v : bool)
| CallGetForceAspectRatio.

(** What a call returns. *)
Inductive Ret : Type :=
| RetVoid
| RetWarning (r : option SetBufferWarning)
| RetBool (r : bool)
| RetHandle (r : option Handle)
| RetDAR (r : option (Z * Z))
| RetNode (r : option QSGSimpleTextureNode).

Definition proxy_call (c : ProxyCall) (w : World) : Ret * World :=
  match c with
  | CallSetSink s => (RetVoid, setSink s w)
  | CallSetBuffer b => let '(r, w') := setBuffer b w in (RetWarning r, w')
  | CallInitWinSys nc ok => let '(r, w') := initWinSys nc ok w in (RetBool r, w')
  | CallSetCaps c => let '(r, w') := setCaps c w in (RetBool r, w')
  | CallGetQtContext => (RetHandle (getQtContext w), w)
  | CallGetContext => (RetHandle (getContext w), w)
  | CallGetDisplay => (RetHandle (getDisplay w), w)
  | CallSetDAR n d => (RetVoid, setDAR n d w)
  | CallGetDAR => (RetDAR (getDAR w), w)
  | CallSetForceAspectRatio v => (RetVoid, setForceAspectRatio v w)
  | CallGetForceAspectRatio => (RetBool (getForceAspectRatio w), w)
  end.

(** What happens to the item: calls through the proxy, and what the host
    does on the render side (paints, the scene graph becoming ready, a new
    size, and the invalidation of the proxy that starts the destruction). *)
Inductive Action : Type :=
| Producer (c : ProxyCall)
| Paint (oldNode : option QSGSimpleTextureNode)
| SceneGraphInitialized (win : option (option Handle))
    (wrap : bool * option Handle * option Handle)
| Resize (wd ht : Q)
| Invalidate.

Definition act (a : Action) (w : World) : Ret * World :=
  match a with
  | Producer c => proxy_call c w
  | Paint oldNode => let '(r, w') := updatePaintNode oldNode w in (RetNode r, w')
  | SceneGraphInitialized win wrap => (RetVoid, onSceneGraphInitialized win wrap w)
  | Resize wd ht => (RetVoid, with_item (set_size wd ht) w)
  | Invalidate => (RetVoid, invalidateRef w)
  end.

(** Runs a list of actions, oldest first; the results come in the same
    order. *)
Fixpoint run (acts : list Action) (w : World) : list Ret * World :=
  match acts with
  | [] => ([], w)
  | a :: acts' =>
    let '(r, w1) := act a w in
    let '(rs, w2) := run acts' w1 in
    (r :: rs, w2)
  end.

(** Same for calls through the proxy only. *)
Fixpoint run_calls (cs : list ProxyCall) (w : World) : list Ret * World :=
  match cs with
  | [] => ([], w)
  | c :: cs' =>
    let '(r, w1) := proxy_call c w in
    let '(rs, w2) := run_calls cs' w1 in
    (r :: rs, w2)
  end.

(** No [setCaps] of the run returned [TRUE]. *)
Fixpoint never_negotiated (acts : list Action) (w : World) : bool :=
  match acts with
  | [] => true
  | a :: acts' =>
    match a with
    | Producer (CallSetCaps c) => negb (fst (setCaps c w))
    | _ => true
    end && never_negotiated acts' (snd (act a w))
  end.

(** [setBuffer] called on each buffer of a list in turn; the warnings come
    in the same order. *)
Fixpoint deliver_all (bs : list GstBuffer) (w : World)
  : list (option SetBufferWarning) * World :=
  match bs with
  | [] => ([], w)
  | b :: bs' =>
    let '(r, w1) := setBuffer b w in
    let '(rs, w2) := deliver_all bs' w1 in
    (r :: rs, w2)
  end.

(** What a call on the proxy returns once the proxy is invalidated. *)
Definition detached_ret (c : ProxyCall) : Ret :=
  match c with
  | CallSetSink _ | CallSetDAR _ _ | CallSetForceAspectRatio _ => RetVoid
  | CallSetBuffer _ => RetWarning (Some ItemIsNull)
  | CallInitWinSys _ _ | CallSetCaps _ | CallGetForceAspectRatio => RetBool false
  | CallGetQtContext | CallGetContext | CallGetDisplay => RetHandle None
  | CallGetDAR => RetDAR None
  end.

(** ** Teardown and window changes *)

(** [QtGLVideoItem::~QtGLVideoItem]: the proxy is invalidated first; then
    both queues are drained and unreffed, potentially-unbound first, the
    current buffer and the caps are dropped and the weak reference to the
    sink is cleared. The GL objects are unreffed as well; their reference
    counts are not kept here. *)
Definition QtGLVideoItem_destroy (w : World) : World :=
  let w := invalidateRef w in
  let p := wpriv w in
  let l := unref_queue (potentially_unbound_buffers p) (refs w) in
  let l := unref_queue (bound_buffers p) l in
  let '(b, l) := gst_buffer_replace (buffer p) None l in
  with_refs l
    (upd_priv (fun p =>
       set_sink None (set_caps None (set_buffer b (set_queues [] [] p))))
       w).

(** [QtGLVideoItem::itemInitialized]. *)
Definition itemInitialized (w : World) : bool :=
  m_openGlContextInitialized (item w).

(** How [handleWindowChanged] arranges for [onSceneGraphInitialized] to be
    run for a new window. *)
Inductive SceneGraphHookup : Type :=
| RenderJobScheduled   (* scheduleRenderJob (new InitializeSceneGraph (this)) *)
| SignalConnected.     (* connect (win, sceneGraphInitialized, ...) *)

(** [QtGLVideoItem::handleWindowChanged]: [win] is [None] for a [NULL]
    window and otherwise tells [win->isSceneGraphInitialized ()]. *)
Definition handleWindowChanged (win : option bool) (w : World)
  : option SceneGraphHookup * World :=
  match win with
  | Some true => (Some RenderJobScheduled, w)
  | Some false => (Some SignalConnected, w)
  | None =>
    let p := wpriv w in
    (None, upd_priv (set_contexts None (other_context p) (context p)) w)
  end.

(** ** Pointer events *)

(** [Qt::MouseButton], as far as [sendMouseEvent] tells buttons apart. *)
Inductive MouseButton : Type :=
| LeftButton
| RightButton
| OtherButton.

(** The members [m_hovering] and [m_mousePressedButton] of the item. *)
Record InputState : Type := mkInput {
  m_hovering : bool;
  m_mousePressedButton : Z
}.

(** What is sent to the sink through [GstNavigation]. *)
Inductive NavigationEvent : Type :=
| MouseScrollEvent (x y : Q) (delta_x delta_y : Z)
    (* gst_navigation_send_mouse_scroll_event *)
| MouseEvent (event : String.string) (button : Z) (x y : Q).
    (* gst_navigation_send_mouse_event *)

(** The conversion of a [QPoint] to a [QPointF]. *)
Definition QPointF_of_QPoint (p : Z * Z) : Q * Q :=
  (inject_Z (fst p), inject_Z (snd p)).

Definition QPoint_eq_dec : forall a b : Z * Z, {a = b} + {a <> b}.
Proof. decide equality; apply Z.eq_dec. Defined.

(** [QtGLVideoItem::wheelEvent]: the position is forwarded as it is. The
    sink is [None] when the weak reference gives no element. *)
Definition wheelEvent (position : Q * Q) (angleDelta : Z * Z) (w : World)
  : option NavigationEvent :=
  match sink (wpriv w) with
  | Some element =>
    Some (MouseScrollEvent (fst position) (snd position)
            (fst angleDelta) (snd angleDelta))
  | None => None
  end.

(** [QtGLVideoItem::hoverEnterEvent] and [hoverLeaveEvent]. *)
Definition hoverEnterEvent (s : InputState) : InputState :=
  mkInput true (m_mousePressedButton s).

Definition hoverLeaveEvent (s : InputState) : InputState :=
  mkInput false (m_mousePressedButton s).

(** [QtGLVideoItem::hoverMoveEvent]. *)
Definition hoverMoveEvent (pos oldPos : Z * Z) (s : InputState) (w : World)
  : option NavigationEvent :=
  if negb (m_hovering s) then None
  else
    let button := if m_mousePressedButton s =? 0 then 0 else 1 in
    if QPoint_eq_dec pos oldPos then None
    else
      let pos' := mapPointToStreamSize (QPointF_of_QPoint pos) w in
      match sink (wpriv w) with
      | Some element => Some (MouseEvent "mouse-move"%string button (fst pos') (snd pos'))
      | None => None
      end.

(** [QtGLVideoItem::sendMouseEvent]. *)
Definition sendMouseEvent (event_button : MouseButton) (event_pos : Z * Z)
    (type : String.string) (s : InputState) (w : World)
  : InputState * option NavigationEvent :=
  let button :=
    match event_button with
    | LeftButton => 1
    | RightButton => 2
    | OtherButton => 0
    end in
  let s' := mkInput (m_hovering s) button in
  let pos := mapPointToStreamSize (QPointF_of_QPoint event_pos) w in
  let event_type := String.append "mouse-button-"%string type in
  (s',
   match sink (wpriv w) with
   | Some element => Some (MouseEvent event_type button (fst pos) (snd pos))
   | None => None
   end).

(** [QtGLVideoItem::mousePressEvent] (the focus it forces is not kept here)
    and [mouseReleaseEvent]. *)
Definition mousePressEvent (event_button : MouseButton) (event_pos : Z * Z)
    (s : InputState) (w : World) : InputState * option NavigationEvent :=
  sendMouseEvent event_button event_pos "press"%string s w.

Definition mouseReleaseEvent (event_button : MouseButton) (event_pos : Z * Z)
    (s : InputState) (w : World) : InputState * option NavigationEvent :=
  sendMouseEvent event_button event_pos "release"%string s w.

(** ** Accounting of references *)

(** Occurrences of [g] in a queue. *)
Definition count_of (g : GstBuffer) (q : list GstBuffer) : Z :=
  Z.of_nat (count_occ Nat.eq_dec q g).

(** The references on [g] that the item holds: in the current-buffer slot
    and in the two queues. *)
Definition owned (w : World) (g : GstBuffer) : Z :=
  holds (buffer (wpriv w)) g
  + count_of g (bound_buffers (wpriv w))
  + count_of g (potentially_unbound_buffers (wpriv w)).

(** The reference on [g] that an action hands to the item: the one that
    [tex->getBuffer] returns in a paint that gets as far as the texture. *)
Definition handed (a : Action) (w : World) (g : GstBuffer) : Z :=
  match a with
  | Paint (Some n) =>
    if m_openGlContextInitialized (item w) then
      match caps (wpriv w) with
      | Some _ => holds (fst (tex_getBuffer (texture n))) g
      | None => 0
      end
    else 0
  | _ => 0
  end.

(** The same along a run. *)
Fixpoint handed_run (acts : list Action) (w : World) (g : GstBuffer) : Z :=
  match acts with
  | [] => 0
  | a :: acts' => handed a w g + handed_run acts' (snd (act a w)) g
  end.

(** A navigation event carries coordinates inside the stream of [w]. *)
Definition in_stream (w : World) (e : NavigationEvent) : Prop :=
  match e with
  | MouseEvent _ _ x y =>
    (0 <= x <= inject_Z (vi_width (v_info (wpriv w))))%Q
    /\ (0 <= y <= inject_Z (vi_height (v_info (wpriv w))))%Q
  | MouseScrollEvent _ _ _ _ => False
  end.

(** The state with the two queues and the reference log blanked out. *)
Definition without_tracker (w : World) : World :=
  with_refs [] (upd_priv (set_queues [] []) w).

(** ** Invariants *)

(** Each queue holds at most one buffer. *)
Definition queues_short (w : World) : Prop :=
  (length (bound_buffers (wpriv w)) <= 1)%nat
  /\ (length (potentially_unbound_buffers (wpriv w)) <= 1)%nat.

(** A current buffer is only there on a negotiated item, and a negotiated
    item stores fixed caps together with the video info parsed from them
    and shows their size as its implicit size. *)
Definition negotiation_consistent (w : World) : Prop :=
  (buffer (wpriv w) = None \/ negotiated (wpriv w) = true)
  /\ (negotiated (wpriv w) = false
      \/ exists c,
           caps (wpriv w) = Some c
           /\ gst_caps_is_fixed c = true
           /\ gst_video_info_from_caps c = Some (v_info (wpriv w))
           /\ implicitWidth (item w) = vi_width (v_info (wpriv w))
           /\ implicitHeight (item w) = vi_height (v_info (wpriv w))).

(** The state before any negotiation: not negotiated, no current buffer. *)
Definition unnegotiated (w : World) : Prop :=
  negotiated (wpriv w) = false /\ buffer (wpriv w) = None.

End Item.

(** ** Sample runs

    The item run with the reference instances of the external functions. *)

Local Abbreviation run' :=
  (run ref_caps_is_fixed ref_video_info_from_caps ref_display_ratio ref_center_rect).
Local Abbreviation setCaps' :=
  (setCaps ref_caps_is_fixed ref_video_info_from_caps ref_display_ratio).
Local Abbreviation updatePaintNode' := (updatePaintNode ref_center_rect).
Local Abbreviation fitStreamToAllocatedSize' := (fitStreamToAllocatedSize ref_center_rect).
Local Abbreviation mapPointToStreamSize' := (mapPointToStreamSize ref_center_rect).
Local Abbreviation _calculate_par' := (_calculate_par ref_display_ratio).
Local Abbreviation hoverMoveEvent' := (hoverMoveEvent ref_center_rect).
Local Abbreviation sendMouseEvent' := (sendMouseEvent ref_center_rect).

(** A fresh item on display 100. *)
Definition sample_new : World := QtGLVideoItem_new (Some 100%nat).

(** The scene graph is initialised, the item is 800x800, caps 2 (1920x1080)
    are negotiated and buffer 1 is delivered. *)
Definition sample_negotiated : World :=
  snd (run' [SceneGraphInitialized (Some (Some 101%nat)) (true, Some 102%nat, Some 103%nat);
             Resize 800 800;
             Producer (CallSetCaps 2%nat);
             Producer (CallSetBuffer 1%nat)]
         sample_new).

(** The node of the samples once drawn with buffer [b] attached. *)
Definition sample_node (b : GstBuffer) : QSGSimpleTextureNode :=
  mkNode (mkTexture (Some b) true (Some 2%nat)) (mkRect 0 175 800 450).

(** First paint (buffer 1 is attached), then buffer 2 is delivered; and the
    next paints and deliveries. Paint [k] receives buffer [k] from the
    texture and attaches buffer [k + 1]. *)
Definition sample_playing : World :=
  snd (deliver_all [2%nat] (snd (updatePaintNode' None sample_negotiated))).

Definition sample_paint1 : World :=
  snd (updatePaintNode' (Some (sample_node 1%nat)) sample_playing).

Definition sample_deliver3 : World := snd (deliver_all [3%nat] sample_paint1).

Definition sample_paint2 : World :=
  snd (updatePaintNode' (Some (sample_node 2%nat)) sample_deliver3).

Definition sample_deliver4 : World := snd (deliver_all [4%nat] sample_paint2).

Definition sample_paint3 : World :=
  snd (updatePaintNode' (Some (sample_node 3%nat)) sample_deliver4).

(** The negotiated sample with sink element 200. *)
Definition sample_with_sink : World := setSink (Some 200%nat) sample_negotiated.

(** A fresh item whose scene graph is initialised but for which the GL
    utility returned no GStreamer context. *)
Definition sample_wrapped : World :=
  snd (run' [SceneGraphInitialized (Some (Some 101%nat)) (true, Some 102%nat, None)]
         sample_new).

(** An input state: the pointer hovers over the item, no button yet. *)
Definition sample_input : InputState := mkInput true 0.

(** ** Properties *)

Section Properties.

(** The external functions, arbitrary again. *)
Variable gst_caps_is_fixed : GstCaps -> bool.
Variable gst_video_info_from_caps : GstCaps -> option GstVideoInfo.
Variable gst_video_calculate_display_ratio :
  Z -> Z -> Z -> Z -> Z -> Z -> option (Z * Z).
Variable gst_video_sink_center_rect :
  GstVideoRectangle -> GstVideoRectangle -> GstVideoRectangle.

Local Abbreviation updatePaintNode := (updatePaintNode gst_video_sink_center_rect).
Local Abbreviation fitStreamToAllocatedSize :=
  (fitStreamToAllocatedSize gst_video_sink_center_rect).
Local Abbreviation mapPointToStreamSize :=
  (mapPointToStreamSize gst_video_sink_center_rect).
Local Abbreviation display_ratio_of :=
  (display_ratio_of gst_video_calculate_display_ratio).
Local Abbreviation _calculate_par :=
  (_calculate_par gst_video_calculate_display_ratio).
Local Abbreviation setCaps :=
  (setCaps gst_caps_is_fixed gst_video_info_from_caps
     gst_video_calculate_display_ratio).
Local Abbreviation proxy_call :=
  (proxy_call gst_caps_is_fixed gst_video_info_from_caps
     gst_video_calculate_display_ratio).
Local Abbreviation run_calls :=
  (run_calls gst_caps_is_fixed gst_video_info_from_caps
     gst_video_calculate_display_ratio).
Local Abbreviation act :=
  (act gst_caps_is_fixed gst_video_info_from_caps
     gst_video_calculate_display_ratio gst_video_sink_center_rect).
Local Abbreviation run :=
  (run gst_caps_is_fixed gst_video_info_from_caps
     gst_video_calculate_display_ratio gst_video_sink_center_rect).
Local Abbreviation never_negotiated :=
  (never_negotiated gst_caps_is_fixed gst_video_info_from_caps
     gst_video_calculate_display_ratio gst_video_sink_center_rect).


(** *** Queues and reference counting *)

Lemma unref_queue_spec (q : list GstBuffer) (l : RefLog) :
  unref_queue q l = rev (map Unref q) ++ l.
Proof.
  revert l. induction q as [|b q IH]; intro l; simpl.
  - reflexivity.
  - rewrite IH. unfold gst_buffer_unref. rewrite <- app_assoc. reflexivity.
Qed.

Lemma move_queue_spec (src dst : list GstBuffer) :
  move_queue src dst = dst ++ src.
Proof.
  revert dst. induction src as [|b src IH]; intro dst; simpl.
  - now rewrite app_nil_r.
  - rewrite IH, <- app_assoc. reflexivity.
Qed.

Lemma gst_buffer_replace_slot (slot new : option GstBuffer) (l : RefLog) :
  fst (gst_buffer_replace slot new l) = new.
Proof.
  unfold gst_buffer_replace. destruct (GstBuffer_eq_dec slot new); simpl; congruence.
Qed.

Lemma gst_buffer_replace_net (slot new : option GstBuffer) (l : RefLog) (g : GstBuffer) :
  net_refs g (snd (gst_buffer_replace slot new l))
  = net_refs g l + holds new g - holds slot g.
Proof.
  unfold gst_buffer_replace.
  destruct (GstBuffer_eq_dec slot new) as [->|_]; simpl; [lia|].
  destruct slot as [b|], new as [b'|]; simpl; lia.
Qed.

(** *** After invalidation *)

Lemma proxy_call_detached (c : ProxyCall) (w : World) :
  qt_item w = false ->
  proxy_call c w = (detached_ret c, w).
Proof.
  intro H.
  destruct c; unfold proxy_call, setSink, setBuffer, initWinSys, setCaps,
    getQtContext, getContext, getDisplay, setDAR, getDAR, setForceAspectRatio,
    getForceAspectRatio; rewrite ?H; simpl; try reflexivity.
  destruct (gst_caps_is_fixed c); reflexivity.
Qed.

(** C8. Once [invalidateRef] has run, every sequence of calls through the
    proxy ([setBuffer], [setCaps], [setSink], [initWinSys], the context and
    display queries, the property accessors) leaves the whole state as
    [invalidateRef] left it, and each call returns what a detached proxy
    returns: [setBuffer] only logs that the item is [NULL], [setCaps] and
    [initWinSys] return [FALSE], the queries return [NULL]. *)
Theorem detached_calls_are_noops (cs : list ProxyCall) (w : World) :
  run_calls cs (invalidateRef w) = (map detached_ret cs, invalidateRef w).
Proof.
  induction cs as [|c cs IH]; simpl.
  - reflexivity.
  - rewrite proxy_call_detached by reflexivity. rewrite IH. reflexivity.
Qed.

(** *** Renegotiation with the same caps *)

(** C9. When the proxy is attached and the fixed caps passed to [setCaps]
    equal the caps already stored, [setCaps] returns [TRUE] and the state is
    untouched: no reset, same current buffer, same queues, same display
    size. *)
Theorem setCaps_same_caps_noop (c : GstCaps) (w : World) :
  gst_caps_is_fixed c = true ->
  qt_item w = true ->
  caps (wpriv w) = Some c ->
  setCaps c w = (true, w).
Proof.
  intros Hfixed Hitem Hcaps. unfold setCaps, same_caps.
  rewrite Hfixed, Hitem, Hcaps. simpl.
  destruct (gst_caps_is_equal_fixed c c) as [_|Hne]; [reflexivity|].
  now elim Hne.
Qed.

(** *** The per-paint exchange *)

Lemma exchange_same (ob : GstBuffer) (wb : bool) (w : World) :
  buffer (wpriv w) = Some ob ->
  exchange ob wb w = with_refs (gst_buffer_unref ob (refs w)) w.
Proof.
  intro H. unfold exchange. rewrite H.
  destruct (GstBuffer_eq_dec (Some ob) (Some ob)) as [_|Hne]; [reflexivity|].
  now elim Hne.
Qed.

Lemma exchange_unbound (ob : GstBuffer) (w : World) :
  exchange ob false w = with_refs (gst_buffer_unref ob (refs w)) w.
Proof.
  unfold exchange.
  destruct (GstBuffer_eq_dec (Some ob) (buffer (wpriv w))); reflexivity.
Qed.

Lemma exchange_bound (ob : GstBuffer) (w : World) :
  buffer (wpriv w) <> Some ob ->
  exchange ob true w
  = with_refs (unref_queue (potentially_unbound_buffers (wpriv w)) (refs w))
      (upd_priv (set_queues [ob] (bound_buffers (wpriv w))) w).
Proof.
  intro H. unfold exchange.
  destruct (GstBuffer_eq_dec (Some ob) (buffer (wpriv w))) as [E|_].
  - now elim H.
  - simpl. rewrite move_queue_spec. reflexivity.
Qed.

Lemma updatePaintNode_state (n : QSGSimpleTextureNode) (ob : GstBuffer)
    (wb : bool) (w : World) :
  m_openGlContextInitialized (item w) = true ->
  caps (wpriv w) <> None ->
  tex_getBuffer (texture n) = (Some ob, wb) ->
  snd (updatePaintNode (Some n) w) = exchange ob wb w.
Proof.
  intros Hinit Hcaps Htex. unfold updatePaintNode.
  rewrite Hinit. cbn [negb].
  destruct (caps (wpriv w)) as [c|]; [|now elim Hcaps].
  rewrite Htex. reflexivity.
Qed.

Lemma updatePaintNode_skipped (oldNode : option QSGSimpleTextureNode) (w : World) :
  m_openGlContextInitialized (item w) = false \/ caps (wpriv w) = None ->
  snd (updatePaintNode oldNode w) = w.
Proof.
  intros [H|H]; unfold updatePaintNode.
  - rewrite H. reflexivity.
  - rewrite H. destruct (m_openGlContextInitialized (item w)); reflexivity.
Qed.

(** C5. When the buffer handed back by the texture is the current buffer,
    or was never bound, the exchange calls [gst_buffer_unref] on that one
    buffer and changes nothing else: both queues keep their contents, and
    no queued buffer is unreffed or moved. The same holds for the paint as a
    whole, which leaves the state alone when it returns early. *)
Theorem exchange_noop_branches (ob : GstBuffer) (wb : bool) (w : World) :
  buffer (wpriv w) = Some ob \/ wb = false ->
  exchange ob wb w = with_refs (Unref ob :: refs w) w
  /\ bound_buffers (wpriv (exchange ob wb w)) = bound_buffers (wpriv w)
  /\ potentially_unbound_buffers (wpriv (exchange ob wb w))
     = potentially_unbound_buffers (wpriv w)
  /\ forall n : QSGSimpleTextureNode,
       tex_getBuffer (texture n) = (Some ob, wb) ->
       let w' := snd (updatePaintNode (Some n) w) in
       bound_buffers (wpriv w') = bound_buffers (wpriv w)
       /\ potentially_unbound_buffers (wpriv w')
          = potentially_unbound_buffers (wpriv w)
       /\ (w' = w \/ w' = with_refs (Unref ob :: refs w) w).
Proof.
  intro H.
  assert (E : exchange ob wb w = with_refs (Unref ob :: refs w) w).
  { destruct H as [H|H].
    - now apply exchange_same.
    - subst wb. apply exchange_unbound. }
  rewrite E. do 3 (split; [reflexivity|]).
  intros n Htex w'. subst w'.
  destruct (m_openGlContextInitialized (item w)) eqn:Hinit.
  - destruct (caps (wpriv w)) as [c|] eqn:Hcaps.
    + rewrite (updatePaintNode_state n ob wb w Hinit) by (congruence || assumption).
      rewrite E. do 2 (split; [reflexivity|]). now right.
    + rewrite updatePaintNode_skipped by now right.
      do 2 (split; [reflexivity|]). now left.
  - rewrite updatePaintNode_skipped by now left.
    do 2 (split; [reflexivity|]). now left.
Qed.

(** *** Delivery *)

Lemma setBuffer_delivers (b : GstBuffer) (w : World) :
  qt_item w = true ->
  negotiated (wpriv w) = true ->
  let w' := snd (setBuffer b w) in
  fst (setBuffer b w) = None
  /\ buffer (wpriv w') = Some b
  /\ qt_item w' = true
  /\ negotiated (wpriv w') = true
  /\ update_posted (item w') = S (update_posted (item w))
  /\ forall g, net_refs g (refs w')
               = net_refs g (refs w) + holds (Some b) g - holds (buffer (wpriv w)) g.
Proof.
  intros Hitem Hneg. unfold setBuffer. rewrite Hitem, Hneg. cbn [negb].
  pose proof (gst_buffer_replace_slot (buffer (wpriv w)) (Some b) (refs w)) as Hslot.
  pose proof (gst_buffer_replace_net (buffer (wpriv w)) (Some b) (refs w)) as Hnet.
  destruct (gst_buffer_replace (buffer (wpriv w)) (Some b) (refs w)) as [slot l].
  simpl in *. subst slot. repeat split; assumption.
Qed.

(** C7. After any sequence of deliveries to an attached, negotiated item,
    every delivery succeeded, the slot holds exactly the buffer delivered
    last, and the slot's reference counting is balanced: over the whole
    sequence the slot took one reference on the last buffer and gave up the
    one it had on the buffer held before, so that no reference on an earlier
    buffer of the sequence is kept. *)
Theorem deliver_all_keeps_last (bs : list GstBuffer) (b : GstBuffer) (w : World) :
  qt_item w = true ->
  negotiated (wpriv w) = true ->
  let r := deliver_all (bs ++ [b]) w in
  fst r = map (fun _ => None) (bs ++ [b])
  /\ buffer (wpriv (snd r)) = Some b
  /\ forall g, net_refs g (refs (snd r))
               = net_refs g (refs w) + holds (Some b) g - holds (buffer (wpriv w)) g.
Proof.
  revert w. induction bs as [|b0 bs IH]; intros w Hitem Hneg.
  - destruct (setBuffer_delivers b w Hitem Hneg) as (Hr & Hb & _ & _ & _ & Hnet).
    simpl. destruct (setBuffer b w) as [r0 w0]. simpl in *. subst r0.
    repeat split; assumption.
  - destruct (setBuffer_delivers b0 w Hitem Hneg) as (Hr & Hb & Hitem' & Hneg' & _ & Hnet).
    simpl. destruct (setBuffer b0 w) as [r0 w0]. simpl in *. subst r0.
    specialize (IH w0 Hitem' Hneg'). simpl in IH.
    destruct (deliver_all (bs ++ [b]) w0) as [rs w1]. simpl in *.
    destruct IH as (IHr & IHb & IHnet). repeat split.
    + now rewrite IHr.
    + assumption.
    + intro g. rewrite IHnet, Hnet, Hb. cbn [holds].
      destruct (Nat.eq_dec b0 g), (Nat.eq_dec b g); lia.
Qed.

(** *** Before negotiation *)

Lemma _calculate_par_fails (w : World) (info : GstVideoInfo) :
  display_ratio_of (wpriv w) info = None ->
  _calculate_par w info = (false, w).
Proof. intro H. unfold _calculate_par. now rewrite H. Qed.

Lemma _calculate_par_succeeds (w : World) (info : GstVideoInfo) (num den : Z) :
  display_ratio_of (wpriv w) info = Some (num, den) ->
  fst (_calculate_par w info) = true.
Proof.
  intro H. unfold _calculate_par. rewrite H.
  destruct (to_guint (vi_height info) mod den =? 0); [reflexivity|].
  destruct (to_guint (vi_width info) mod num =? 0); reflexivity.
Qed.

Lemma setCaps_failed_unnegotiated (c : GstCaps) (w : World) :
  unnegotiated w ->
  fst (setCaps c w) = false ->
  unnegotiated (snd (setCaps c w)).
Proof.
  intros Hun. unfold setCaps.
  destruct (gst_caps_is_fixed c); cbn [negb]; [|easy].
  destruct (qt_item w); cbn [negb]; [|easy].
  destruct (same_caps (caps (wpriv w)) c); [easy|].
  destruct (gst_video_info_from_caps c) as [info|]; [|easy].
  set (w2 := upd_priv (set_caps (Some c)) (_reset w)).
  destruct (display_ratio_of (wpriv w2) info) as [[num den]|] eqn:Hratio.
  - pose proof (_calculate_par_succeeds w2 info num den Hratio) as Hok.
    destruct (_calculate_par w2 info) as [ok w3]. simpl in Hok. subst ok.
    simpl. discriminate.
  - rewrite (_calculate_par_fails w2 info Hratio). simpl. intros _.
    unfold unnegotiated, w2, _reset.
    destruct (gst_buffer_replace (buffer (wpriv w)) None (refs w)) as [b l] eqn:Hrep.
    simpl. split; [reflexivity|].
    pose proof (gst_buffer_replace_slot (buffer (wpriv w)) None (refs w)) as Hslot.
    rewrite Hrep in Hslot. exact Hslot.
Qed.

Lemma exchange_keeps_slot (ob : GstBuffer) (wb : bool) (w : World) :
  negotiated (wpriv (exchange ob wb w)) = negotiated (wpriv w)
  /\ buffer (wpriv (exchange ob wb w)) = buffer (wpriv w)
  /\ caps (wpriv (exchange ob wb w)) = caps (wpriv w)
  /\ qt_item (exchange ob wb w) = qt_item w
  /\ m_openGlContextInitialized (item (exchange ob wb w))
     = m_openGlContextInitialized (item w).
Proof.
  unfold exchange.
  destruct (GstBuffer_eq_dec (Some ob) (buffer (wpriv w))); [easy|].
  destruct wb; easy.
Qed.

Lemma updatePaintNode_cases (oldNode : option QSGSimpleTextureNode) (w : World) :
  snd (updatePaintNode oldNode w) = w
  \/ exists ob wb, snd (updatePaintNode oldNode w) = exchange ob wb w.
Proof.
  unfold updatePaintNode.
  destruct (m_openGlContextInitialized (item w)); cbn [negb]; [|now left].
  destruct (caps (wpriv w)) as [c|]; [|now left].
  destruct (tex_getBuffer _) as [[ob|] wb]; cbn [snd].
  - right. now exists ob, wb.
  - now left.
Qed.

Lemma updatePaintNode_keeps_slot (oldNode : option QSGSimpleTextureNode) (w : World) :
  let w' := snd (updatePaintNode oldNode w) in
  negotiated (wpriv w') = negotiated (wpriv w)
  /\ buffer (wpriv w') = buffer (wpriv w)
  /\ caps (wpriv w') = caps (wpriv w)
  /\ qt_item w' = qt_item w
  /\ m_openGlContextInitialized (item w') = m_openGlContextInitialized (item w).
Proof.
  intro w'. subst w'.
  destruct (updatePaintNode_cases oldNode w) as [E|(ob & wb & E)]; rewrite E.
  - easy.
  - apply exchange_keeps_slot.
Qed.

Lemma act_keeps_unnegotiated (a : Action) (w : World) :
  unnegotiated w ->
  never_negotiated [a] w = true ->
  unnegotiated (snd (act a w)).
Proof.
  intros Hun Hnever. destruct a as [c|oldNode|win wrap|wd ht|].
  - destruct c; simpl in *;
      try (unfold setSink, setDAR, setForceAspectRatio;
           destruct (qt_item w); exact Hun).
    + (* setBuffer *)
      unfold setBuffer. destruct Hun as [Hneg Hbuf].
      destruct (qt_item w); cbn [negb]; [|easy].
      rewrite Hneg. easy.
    + (* initWinSys *)
      unfold initWinSys. destruct (qt_item w); cbn [negb]; [|easy].
      destruct (display (wpriv w)), (qt_context (wpriv w)),
        (other_context (wpriv w)), (context (wpriv w));
        try exact Hun; destruct new_context; exact Hun.
    + (* setCaps *)
      rewrite andb_true_r in Hnever. apply negb_true_iff in Hnever.
      pose proof (setCaps_failed_unnegotiated c w Hun Hnever) as H.
      destruct (setCaps c w). exact H.
  - simpl. pose proof (updatePaintNode_keeps_slot oldNode w) as H.
    destruct (updatePaintNode oldNode w) as [r w']. simpl in *.
    destruct H as (Hn & Hb & _). unfold unnegotiated. rewrite Hn, Hb. exact Hun.
  - simpl. unfold onSceneGraphInitialized.
    destruct win as [ctx|]; [|exact Hun].
    destruct (option_eq_dec_handle (qt_context (wpriv w)) ctx); [exact Hun|].
    destruct ctx; [|exact Hun]. destruct wrap as [[ok other] cx]. exact Hun.
  - exact Hun.
  - exact Hun.
Qed.

Lemma run_keeps_unnegotiated (acts : list Action) (w : World) :
  unnegotiated w ->
  never_negotiated acts w = true ->
  unnegotiated (snd (run acts w)).
Proof.
  revert w. induction acts as [|a acts IH]; intros w Hun Hnever.
  - exact Hun.
  - cbn [never_negotiated] in Hnever. apply andb_true_iff in Hnever.
    destruct Hnever as [Ha Hrest].
    assert (Hstep : unnegotiated (snd (act a w))).
    { apply act_keeps_unnegotiated; [exact Hun|].
      cbn [never_negotiated]. now rewrite Ha. }
    specialize (IH _ Hstep Hrest). cbn [run].
    destruct (act a w) as [r w1]. simpl in *.
    destruct (run acts w1) as [rs w2]. exact IH.
Qed.

(** C3. Take a freshly constructed item and run any actions on it
    (producer calls, paints, scene-graph initialisation, resizes,
    invalidation) in which no [setCaps] returned [TRUE]. If the proxy is still attached, a
    [setBuffer] then only logs that the item is not negotiated: the buffer
    is dropped, nothing changes, and the current-buffer slot is empty. *)
Theorem setBuffer_before_negotiation (disp : option Handle) (acts : list Action)
    (b : GstBuffer) :
  let w := snd (run acts (QtGLVideoItem_new disp)) in
  never_negotiated acts (QtGLVideoItem_new disp) = true ->
  qt_item w = true ->
  setBuffer b w = (Some Unnegotiated, w)
  /\ buffer (wpriv w) = None
  /\ buffer (wpriv (snd (setBuffer b w))) = None.
Proof.
  intros w Hnever Hitem.
  assert (Hun : unnegotiated w).
  { apply run_keeps_unnegotiated; [split; reflexivity | exact Hnever]. }
  destruct Hun as [Hneg Hbuf].
  assert (E : setBuffer b w = (Some Unnegotiated, w)).
  { unfold setBuffer. now rewrite Hitem, Hneg. }
  rewrite E. auto.
Qed.

(** *** The two-generation lag *)

Lemma setBuffer_keeps_tracker (b : GstBuffer) (w : World) :
  let w' := snd (setBuffer b w) in
  bound_buffers (wpriv w') = bound_buffers (wpriv w)
  /\ potentially_unbound_buffers (wpriv w') = potentially_unbound_buffers (wpriv w)
  /\ caps (wpriv w') = caps (wpriv w)
  /\ m_openGlContextInitialized (item w') = m_openGlContextInitialized (item w).
Proof.
  unfold setBuffer.
  destruct (qt_item w); cbn [negb]; [|easy].
  destruct (negotiated (wpriv w)); cbn [negb]; [|easy].
  destruct (gst_buffer_replace _ _ _) as [slot l]. easy.
Qed.

Lemma deliver_all_keeps_tracker (bs : list GstBuffer) (w : World) :
  let w' := snd (deliver_all bs w) in
  bound_buffers (wpriv w') = bound_buffers (wpriv w)
  /\ potentially_unbound_buffers (wpriv w') = potentially_unbound_buffers (wpriv w)
  /\ caps (wpriv w') = caps (wpriv w)
  /\ m_openGlContextInitialized (item w') = m_openGlContextInitialized (item w).
Proof.
  revert w. induction bs as [|b bs IH]; intro w; cbn [deliver_all].
  - easy.
  - pose proof (setBuffer_keeps_tracker b w) as Hb.
    destruct (setBuffer b w) as [r w1]. specialize (IH w1).
    destruct (deliver_all bs w1) as [rs w2]. simpl in *.
    destruct Hb as (E1 & E2 & E3 & E4), IH as (I1 & I2 & I3 & I4).
    repeat split; congruence.
Qed.

(** A paint that finds a bound buffer, different from the current one, on
    the texture: the potentially-unbound queue is drained and unreffed, the
    bound queue takes its place, and the buffer becomes the bound queue. *)
Lemma updatePaintNode_bound (n : QSGSimpleTextureNode) (ob : GstBuffer) (w : World) :
  m_openGlContextInitialized (item w) = true ->
  caps (wpriv w) <> None ->
  tex_getBuffer (texture n) = (Some ob, true) ->
  buffer (wpriv w) <> Some ob ->
  let w' := snd (updatePaintNode (Some n) w) in
  bound_buffers (wpriv w') = [ob]
  /\ potentially_unbound_buffers (wpriv w') = bound_buffers (wpriv w)
  /\ refs w' = rev (map Unref (potentially_unbound_buffers (wpriv w))) ++ refs w
  /\ caps (wpriv w') = caps (wpriv w)
  /\ m_openGlContextInitialized (item w') = m_openGlContextInitialized (item w).
Proof.
  intros Hinit Hcaps Htex Hbuf w'. subst w'.
  rewrite (updatePaintNode_state n ob true w Hinit Hcaps Htex).
  rewrite (exchange_bound ob w Hbuf). cbn.
  rewrite unref_queue_spec. easy.
Qed.

(** C1. Three consecutive paints, with any deliveries in between, whose
    exchanges receive from the texture the distinct buffers [F1], [F2],
    [F3], each one bound and each one different from the buffer current at
    that paint. After the first paint [F1] is the bound queue; after the
    second [F2] is the bound queue and [F1] is kept in the
    potentially-unbound queue; the third paint unrefs [F1] and nothing else,
    leaves [F2] as the potentially-unbound queue and [F3] as the only buffer
    of the bound queue. So a buffer that entered the bound queue is unreffed
    exactly at the second later exchange of a bound buffer, not before. *)
Theorem two_generation_lag (w0 : World) (n1 n2 n3 : QSGSimpleTextureNode)
    (F1 F2 F3 : GstBuffer) (ds1 ds2 : list GstBuffer) :
  let w1 := snd (updatePaintNode (Some n1) w0) in
  let w1' := snd (deliver_all ds1 w1) in
  let w2 := snd (updatePaintNode (Some n2) w1') in
  let w2' := snd (deliver_all ds2 w2) in
  let w3 := snd (updatePaintNode (Some n3) w2') in
  m_openGlContextInitialized (item w0) = true ->
  caps (wpriv w0) <> None ->
  tex_getBuffer (texture n1) = (Some F1, true) ->
  tex_getBuffer (texture n2) = (Some F2, true) ->
  tex_getBuffer (texture n3) = (Some F3, true) ->
  buffer (wpriv w0) <> Some F1 ->
  buffer (wpriv w1') <> Some F2 ->
  buffer (wpriv w2') <> Some F3 ->
  F1 <> F2 -> F2 <> F3 -> F1 <> F3 ->
  bound_buffers (wpriv w1) = [F1]
  /\ (bound_buffers (wpriv w2) = [F2]
      /\ potentially_unbound_buffers (wpriv w2) = [F1])
  /\ (refs w3 = Unref F1 :: refs w2'
      /\ potentially_unbound_buffers (wpriv w3) = [F2]
      /\ bound_buffers (wpriv w3) = [F3]
      /\ ~ In F1 (bound_buffers (wpriv w3) ++ potentially_unbound_buffers (wpriv w3))).
Proof.
  intros w1 w1' w2 w2' w3 Hinit Hcaps T1 T2 T3 B1 B2 B3 N12 N23 N13.
  destruct (updatePaintNode_bound n1 F1 w0 Hinit Hcaps T1 B1)
    as (Hb1 & Hu1 & _ & Hc1 & Hi1).
  fold w1 in Hb1, Hu1, Hc1, Hi1.
  destruct (deliver_all_keeps_tracker ds1 w1) as (Db1 & Du1 & Dc1 & Di1).
  fold w1' in Db1, Du1, Dc1, Di1.
  assert (Hinit1 : m_openGlContextInitialized (item w1') = true) by congruence.
  assert (Hcaps1 : caps (wpriv w1') <> None) by congruence.
  destruct (updatePaintNode_bound n2 F2 w1' Hinit1 Hcaps1 T2 B2)
    as (Hb2 & Hu2 & _ & Hc2 & Hi2).
  fold w2 in Hb2, Hu2, Hc2, Hi2.
  destruct (deliver_all_keeps_tracker ds2 w2) as (Db2 & Du2 & Dc2 & Di2).
  fold w2' in Db2, Du2, Dc2, Di2.
  assert (Hinit2 : m_openGlContextInitialized (item w2') = true) by congruence.
  assert (Hcaps2 : caps (wpriv w2') <> None) by congruence.
  destruct (updatePaintNode_bound n3 F3 w2' Hinit2 Hcaps2 T3 B3)
    as (Hb3 & Hu3 & Hr3 & _ & _).
  fold w3 in Hb3, Hu3, Hr3.
  assert (Hq2 : potentially_unbound_buffers (wpriv w2) = [F1]) by congruence.
  split; [exact Hb1|]. split; [split; assumption|].
  split; [|split; [|split]].
  - rewrite Hr3, Du2, Hq2. reflexivity.
  - congruence.
  - exact Hb3.
  - rewrite Hb3, Hu3, Db2, Hb2. simpl. intros [E|[E|[]]]; congruence.
Qed.

(** *** A renegotiation that fails on the ratio *)

Lemma display_ratio_of_reads_par (p q : QtGLVideoItemPrivate) (info : GstVideoInfo) :
  par_n p = par_n q -> par_d p = par_d q ->
  display_ratio_of p info = display_ratio_of q info.
Proof. intros Hn Hd. unfold display_ratio_of. now rewrite Hn, Hd. Qed.

Lemma _reset_state (w : World) :
  let w' := _reset w in
  buffer (wpriv w') = None
  /\ caps (wpriv w') = None
  /\ negotiated (wpriv w') = false
  /\ initted (wpriv w') = false
  /\ bound_buffers (wpriv w') = []
  /\ potentially_unbound_buffers (wpriv w') = []
  /\ refs w' = rev (map Unref (bound_buffers (wpriv w)))
               ++ rev (map Unref (potentially_unbound_buffers (wpriv w)))
               ++ match buffer (wpriv w) with
                  | Some b => [Unref b]
                  | None => []
                  end ++ refs w
  /\ par_n (wpriv w') = par_n (wpriv w)
  /\ par_d (wpriv w') = par_d (wpriv w)
  /\ display_width (wpriv w') = display_width (wpriv w)
  /\ display_height (wpriv w') = display_height (wpriv w)
  /\ v_info (wpriv w') = v_info (wpriv w)
  /\ qt_item w' = qt_item w.
Proof.
  unfold _reset, gst_buffer_replace.
  destruct (GstBuffer_eq_dec (buffer (wpriv w)) None) as [E|E]; cbn.
  - rewrite !unref_queue_spec, E. now repeat split.
  - rewrite !unref_queue_spec.
    destruct (buffer (wpriv w)) as [b|]; [|now elim E]. now repeat split.
Qed.

(** What [setCaps] does when the ratio cannot be computed for new caps: it
    returns [FALSE] in the state that [_reset] and [gst_caps_replace] left. *)
Lemma setCaps_invalid_ratio_state (c : GstCaps) (info : GstVideoInfo) (w : World) :
  gst_caps_is_fixed c = true ->
  qt_item w = true ->
  caps (wpriv w) <> Some c ->
  gst_video_info_from_caps c = Some info ->
  display_ratio_of (wpriv w) info = None ->
  setCaps c w = (false, upd_priv (set_caps (Some c)) (_reset w)).
Proof.
  intros Hfixed Hitem Hcaps Hinfo Hratio.
  assert (Hsame : same_caps (caps (wpriv w)) c = false).
  { unfold same_caps. destruct (caps (wpriv w)) as [c0|]; [|reflexivity].
    destruct (gst_caps_is_equal_fixed c0 c); [|reflexivity]. subst. now elim Hcaps. }
  destruct (_reset_state w)
    as (_ & _ & _ & _ & _ & _ & _ & Rpn & Rpd & _).
  set (w2 := upd_priv (set_caps (Some c)) (_reset w)).
  assert (Hratio2 : display_ratio_of (wpriv w2) info = None).
  { rewrite <- Hratio. apply display_ratio_of_reads_par; [exact Rpn | exact Rpd]. }
  unfold setCaps. rewrite Hfixed, Hitem, Hsame, Hinfo. cbn [negb].
  fold w2. now rewrite (_calculate_par_fails w2 info Hratio2).
Qed.

(** C2, as the code has it. When [setCaps] gets past the parsing of new
    fixed caps and then fails because the display ratio cannot be computed,
    it returns [FALSE] with the item reset: the current buffer is dropped
    and unreffed, both queues are drained and unreffed, and [negotiated] is
    [FALSE], so that a buffer delivered afterwards is dropped as
    unnegotiated. The display size and the video info keep their previous
    values. *)
Theorem setCaps_invalid_ratio_resets (c : GstCaps) (info : GstVideoInfo) (w : World) :
  gst_caps_is_fixed c = true ->
  qt_item w = true ->
  caps (wpriv w) <> Some c ->
  gst_video_info_from_caps c = Some info ->
  display_ratio_of (wpriv w) info = None ->
  let w' := snd (setCaps c w) in
  fst (setCaps c w) = false
  /\ buffer (wpriv w') = None
  /\ bound_buffers (wpriv w') = []
  /\ potentially_unbound_buffers (wpriv w') = []
  /\ negotiated (wpriv w') = false
  /\ refs w' = rev (map Unref (bound_buffers (wpriv w)))
               ++ rev (map Unref (potentially_unbound_buffers (wpriv w)))
               ++ match buffer (wpriv w) with
                  | Some b => [Unref b]
                  | None => []
                  end ++ refs w
  /\ display_width (wpriv w') = display_width (wpriv w)
  /\ display_height (wpriv w') = display_height (wpriv w)
  /\ v_info (wpriv w') = v_info (wpriv w)
  /\ forall b, setBuffer b w' = (Some Unnegotiated, w').
Proof.
  intros Hfixed Hitem Hcaps Hinfo Hratio w'.
  subst w'. rewrite (setCaps_invalid_ratio_state c info w) by assumption.
  cbn [fst snd].
  destruct (_reset_state w)
    as (Rb & Rc & Rn & Ri & Rq & Ru & Rr & Rpn & Rpd & Rdw & Rdh & Rv & Rit).
  set (w2 := upd_priv (set_caps (Some c)) (_reset w)).
  assert (Hneg2 : negotiated (wpriv w2) = false) by exact Rn.
  assert (Hitem2 : qt_item w2 = true) by (rewrite <- Hitem; exact Rit).
  repeat split; try assumption.
  intro b. unfold setBuffer. now rewrite Hitem2, Hneg2.
Qed.

(** X7. On that failure the stored caps are the new caps, so that the same
    caps passed again are accepted by the equality test: [setCaps] then
    returns [TRUE] and changes nothing, although [negotiated] is still
    [FALSE]. *)
Lemma setCaps_invalid_ratio_stores_caps (c : GstCaps) (info : GstVideoInfo) (w : World) :
  gst_caps_is_fixed c = true ->
  qt_item w = true ->
  caps (wpriv w) <> Some c ->
  gst_video_info_from_caps c = Some info ->
  display_ratio_of (wpriv w) info = None ->
  let w' := snd (setCaps c w) in
  caps (wpriv w') = Some c
  /\ setCaps c w' = (true, w')
  /\ negotiated (wpriv w') = false.
Proof.
  intros Hfixed Hitem Hcaps Hinfo Hratio w'.
  subst w'. rewrite (setCaps_invalid_ratio_state c info w) by assumption.
  cbn [snd].
  destruct (_reset_state w)
    as (_ & _ & Rn & _ & _ & _ & _ & _ & _ & _ & _ & _ & Rit).
  set (w2 := upd_priv (set_caps (Some c)) (_reset w)).
  assert (Hitem2 : qt_item w2 = true) by (rewrite <- Hitem; exact Rit).
  split; [reflexivity|]. split; [|exact Rn].
  unfold setCaps. rewrite Hfixed, Hitem2. cbn [negb].
  replace (same_caps (caps (wpriv w2)) c) with true; [reflexivity|].
  unfold same_caps, w2. cbn.
  destruct (gst_caps_is_equal_fixed c c) as [_|Hne]; [reflexivity | now elim Hne].
Qed.

(** *** The display size *)

Lemma to_gint_small (v : Z) : 0 <= v <= G_MAXINT -> to_gint v = v.
Proof.
  unfold to_gint, G_MAXINT. intro H.
  rewrite Z.mod_small by lia. lia.
Qed.

Lemma to_gint_to_guint (v : Z) : to_gint (to_guint v) = to_gint v.
Proof.
  unfold to_gint, to_guint.
  rewrite Zplus_mod_idemp_l. reflexivity.
Qed.

Lemma scaled_gint_spec (a b c : Z) :
  0 <= a <= G_MAXINT -> 0 < b <= G_MAXINT -> 0 < c <= G_MAXINT ->
  scaled_gint a b c = to_gint (a * b / c).
Proof.
  unfold G_MAXINT. intros Ha Hb Hc. unfold scaled_gint.
  rewrite (to_gint_small b), (to_gint_small c) by (unfold G_MAXINT; lia).
  unfold to_guint64. rewrite (Z.mod_small a) by lia.
  unfold gst_util_uint64_scale_int.
  replace (c <=? 0) with false by (symmetry; apply Z.leb_gt; lia).
  replace (b <? 0) with false by (symmetry; apply Z.ltb_ge; lia).
  cbn [orb].
  assert (Hq : 0 <= a * b / c <= a * b).
  { split.
    - apply Z.div_pos; nia.
    - apply Z.div_le_upper_bound; nia. }
  assert (Hab : a * b <= (2 ^ 31 - 1) * (2 ^ 31 - 1)) by nia.
  replace (G_MAXUINT64 <? a * b / c) with false
    by (symmetry; apply Z.ltb_ge; unfold G_MAXUINT64; lia).
  apply to_gint_to_guint.
Qed.

(** The three branches of [_calculate_par], with the scaled side as it is
    stored: truncated to 32 bits. *)
Lemma _calculate_par_branches (w : World) (info : GstVideoInfo) (num den : Z) :
  0 <= vi_width info <= G_MAXINT ->
  0 <= vi_height info <= G_MAXINT ->
  0 < num <= G_MAXINT ->
  0 < den <= G_MAXINT ->
  display_ratio_of (wpriv w) info = Some (num, den) ->
  let wd := vi_width info in
  let ht := vi_height info in
  let p' := wpriv (snd (_calculate_par w info)) in
  fst (_calculate_par w info) = true
  /\ (ht mod den = 0 ->
      display_height p' = ht /\ display_width p' = to_gint (ht * num / den))
  /\ (ht mod den <> 0 -> wd mod num = 0 ->
      display_width p' = wd /\ display_height p' = to_gint (wd * den / num))
  /\ (ht mod den <> 0 -> wd mod num <> 0 ->
      display_height p' = ht /\ display_width p' = to_gint (ht * num / den)).
Proof.
  intros Hw Hh Hnum Hden Hratio wd ht p'.
  split; [exact (_calculate_par_succeeds w info num den Hratio)|].
  assert (Eh : to_guint ht = ht).
  { unfold to_guint. apply Z.mod_small. unfold G_MAXINT in Hh. subst ht. lia. }
  assert (Ew : to_guint wd = wd).
  { unfold to_guint. apply Z.mod_small. unfold G_MAXINT in Hw. subst wd. lia. }
  assert (Sh : scaled_gint ht num den = to_gint (ht * num / den))
    by (apply scaled_gint_spec; assumption).
  assert (Sw : scaled_gint wd den num = to_gint (wd * den / num))
    by (apply scaled_gint_spec; assumption).
  subst p'. unfold _calculate_par. rewrite Hratio. fold wd ht. rewrite Eh, Ew.
  destruct (ht mod den =? 0) eqn:Dh; [apply Z.eqb_eq in Dh | apply Z.eqb_neq in Dh].
  - cbn. rewrite Sh. repeat split; easy.
  - destruct (wd mod num =? 0) eqn:Dw; [apply Z.eqb_eq in Dw | apply Z.eqb_neq in Dw];
      cbn; rewrite ?Sh, ?Sw; repeat split; easy.
Qed.

(** C4, as the code has it. For a video info with [gint] dimensions that
    are not negative and a display ratio [num/den] of positive [gint]s: if
    the height divides evenly by [den] the display height is the height and
    the display width is [height * num / den]; else if the width divides
    evenly by [num] the display width is the width and the display height is
    [width * den / num]; else the height is kept as in the first case. The
    scaled side is that quotient provided the quotient is at most
    [G_MAXINT]. *)
Theorem _calculate_par_display_size (w : World) (info : GstVideoInfo) (num den : Z) :
  0 <= vi_width info <= G_MAXINT ->
  0 <= vi_height info <= G_MAXINT ->
  0 < num <= G_MAXINT ->
  0 < den <= G_MAXINT ->
  display_ratio_of (wpriv w) info = Some (num, den) ->
  let wd := vi_width info in
  let ht := vi_height info in
  let p' := wpriv (snd (_calculate_par w info)) in
  fst (_calculate_par w info) = true
  /\ (ht mod den = 0 ->
      display_height p' = ht
      /\ (ht * num / den <= G_MAXINT -> display_width p' = ht * num / den))
  /\ (ht mod den <> 0 -> wd mod num = 0 ->
      display_width p' = wd
      /\ (wd * den / num <= G_MAXINT -> display_height p' = wd * den / num))
  /\ (ht mod den <> 0 -> wd mod num <> 0 ->
      display_height p' = ht
      /\ (ht * num / den <= G_MAXINT -> display_width p' = ht * num / den)).
Proof.
  intros Hw Hh Hnum Hden Hratio wd ht p'.
  destruct (_calculate_par_branches w info num den Hw Hh Hnum Hden Hratio)
    as (Hok & B1 & B2 & B3).
  fold wd ht p' in B1, B2, B3.
  assert (Qh : 0 <= ht * num / den) by (apply Z.div_pos; subst ht; nia).
  assert (Qw : 0 <= wd * den / num) by (apply Z.div_pos; subst wd; nia).
  split; [exact Hok|]. split; [|split].
  - intro D. destruct (B1 D) as [E1 E2]. split; [exact E1|].
    intro F. rewrite E2. apply to_gint_small. lia.
  - intros D D'. destruct (B2 D D') as [E1 E2]. split; [exact E1|].
    intro F. rewrite E2. apply to_gint_small. lia.
  - intros D D'. destruct (B3 D D') as [E1 E2]. split; [exact E1|].
    intro F. rewrite E2. apply to_gint_small. lia.
Qed.

(** *** Mapping a point to stream coordinates *)

Lemma CLAMP_range (x low high : Q) :
  (low <= high)%Q -> (low <= CLAMP x low high <= high)%Q.
Proof.
  intro H. unfold CLAMP.
  destruct (Qlt_le_dec high x) as [Hhi|Hhi].
  - split; [exact H | apply Qle_refl].
  - destruct (Qlt_le_dec x low) as [Hlo|Hlo].
    + split; [apply Qle_refl | exact H].
    + split; assumption.
Qed.

Lemma CLAMP_inside (x low high : Q) :
  (low <= x <= high)%Q -> (CLAMP x low high == x)%Q.
Proof.
  intros [Hlo Hhi]. unfold CLAMP.
  destruct (Qlt_le_dec high x) as [H|H].
  - exfalso. apply (Qlt_irrefl x). eapply Qle_lt_trans; eassumption.
  - destruct (Qlt_le_dec x low) as [H'|H'].
    + exfalso. apply (Qlt_irrefl x). eapply Qlt_le_trans; eassumption.
    + reflexivity.
Qed.

Lemma CLAMP_zero (high : Q) : (0 <= high)%Q -> CLAMP 0 0 high = 0%Q.
Proof.
  intro H. unfold CLAMP.
  destruct (Qlt_le_dec high 0) as [H'|H'].
  - exfalso. apply (Qlt_irrefl 0). eapply Qle_lt_trans; eassumption.
  - destruct (Qlt_le_dec 0 0) as [H''|H'']; [|reflexivity].
    exfalso. exact (Qlt_irrefl 0 H'').
Qed.

Lemma inject_Z_nonneg (z : Z) : 0 <= z -> (0 <= inject_Z z)%Q.
Proof. intro H. change 0%Q with (inject_Z 0). now rewrite <- Zle_Qle. Qed.

Lemma inject_Z_nonzero (z : Z) : 0 < z -> ~ (inject_Z z == 0)%Q.
Proof.
  intros H E. unfold Qeq in E. simpl in E. lia.
Qed.

(** The stream coordinate of the near edge of the destination rectangle. *)
Lemma near_edge (o len : Z) (s : Q) :
  0 < len -> (0 <= s)%Q ->
  (CLAMP ((inject_Z o - inject_Z o) / inject_Z len * s) 0 s == 0)%Q.
Proof.
  intros Hlen Hs.
  assert (E : ((inject_Z o - inject_Z o) / inject_Z len * s == 0)%Q).
  { field. now apply inject_Z_nonzero. }
  rewrite CLAMP_inside; [exact E|].
  rewrite E. split; [apply Qle_refl | exact Hs].
Qed.

(** The stream coordinate of the far edge of the destination rectangle. *)
Lemma far_edge (o len : Z) (s : Q) :
  0 < len -> (0 <= s)%Q ->
  (CLAMP ((inject_Z (o + len) - inject_Z o) / inject_Z len * s) 0 s == s)%Q.
Proof.
  intros Hlen Hs.
  assert (E : ((inject_Z (o + len) - inject_Z o) / inject_Z len * s == s)%Q).
  { rewrite inject_Z_plus. field. now apply inject_Z_nonzero. }
  rewrite CLAMP_inside; [exact E|].
  rewrite E. split; [exact Hs | apply Qle_refl].
Qed.

(** C6. For a video info whose dimensions are not negative, and whenever
    the destination rectangle computed by [fitStreamToAllocatedSize] has a
    positive width and height, the four corners of that rectangle map to
    [(0, 0)], [(width, 0)], [(0, height)] and [(width, height)] of the
    stream. *)
Theorem mapPointToStreamSize_corners (w : World) :
  0 <= vi_width (v_info (wpriv w)) ->
  0 <= vi_height (v_info (wpriv w)) ->
  let result := fitStreamToAllocatedSize w in
  0 < rect_w result ->
  0 < rect_h result ->
  let left := inject_Z (rect_x result) in
  let right := inject_Z (rect_x result + rect_w result) in
  let top := inject_Z (rect_y result) in
  let bottom := inject_Z (rect_y result + rect_h result) in
  let stream_width := inject_Z (vi_width (v_info (wpriv w))) in
  let stream_height := inject_Z (vi_height (v_info (wpriv w))) in
  point_eq (mapPointToStreamSize (left, top) w) (0%Q, 0%Q)
  /\ point_eq (mapPointToStreamSize (right, top) w) (stream_width, 0%Q)
  /\ point_eq (mapPointToStreamSize (left, bottom) w) (0%Q, stream_height)
  /\ point_eq (mapPointToStreamSize (right, bottom) w) (stream_width, stream_height).
Proof.
  intros Hw Hh result Hrw Hrh left right top bottom stream_width stream_height.
  apply inject_Z_nonneg in Hw, Hh.
  assert (Bw : (0 <? rect_w result) = true) by now apply Z.ltb_lt.
  assert (Bh : (0 <? rect_h result) = true) by now apply Z.ltb_lt.
  unfold point_eq, mapPointToStreamSize. fold result. rewrite Bw, Bh.
  cbn [fst snd].
  repeat split;
    first [ now apply near_edge | now apply far_edge ].
Qed.

(** C10. For a video info whose dimensions are not negative and for every
    point: a destination rectangle of non-positive width gives the stream
    abscissa 0, one of non-positive height gives the stream ordinate 0 (the
    division is skipped), and in every case the result lies in
    [[0, width] x [0, height]] of the stream. *)
Theorem mapPointToStreamSize_guarded (pos : Q * Q) (w : World) :
  0 <= vi_width (v_info (wpriv w)) ->
  0 <= vi_height (v_info (wpriv w)) ->
  let result := fitStreamToAllocatedSize w in
  let p := mapPointToStreamSize pos w in
  (rect_w result <= 0 -> fst p = 0%Q)
  /\ (rect_h result <= 0 -> snd p = 0%Q)
  /\ (0 <= fst p <= inject_Z (vi_width (v_info (wpriv w))))%Q
  /\ (0 <= snd p <= inject_Z (vi_height (v_info (wpriv w))))%Q.
Proof.
  intros Hw Hh result p.
  apply inject_Z_nonneg in Hw, Hh.
  subst p. unfold mapPointToStreamSize. fold result. cbn [fst snd].
  split; [|split; [|split]].
  - intro H. replace (0 <? rect_w result) with false
      by (symmetry; apply Z.ltb_ge; exact H).
    now apply CLAMP_zero.
  - intro H. replace (0 <? rect_h result) with false
      by (symmetry; apply Z.ltb_ge; exact H).
    now apply CLAMP_zero.
  - now apply CLAMP_range.
  - now apply CLAMP_range.
Qed.

(** ** Further properties *)

Local Abbreviation hoverMoveEvent := (hoverMoveEvent gst_video_sink_center_rect).
Local Abbreviation sendMouseEvent := (sendMouseEvent gst_video_sink_center_rect).
Local Abbreviation mousePressEvent := (mousePressEvent gst_video_sink_center_rect).
Local Abbreviation mouseReleaseEvent := (mouseReleaseEvent gst_video_sink_center_rect).
Local Abbreviation handed_run :=
  (handed_run gst_caps_is_fixed gst_video_info_from_caps
     gst_video_calculate_display_ratio gst_video_sink_center_rect).

(** *** Every reference is accounted for *)

Lemma net_refs_app (g : GstBuffer) (l1 l2 : RefLog) :
  net_refs g (l1 ++ l2) = net_refs g l1 + net_refs g l2.
Proof.
  induction l1 as [|[b|b] l1 IH]; simpl; [reflexivity | |]; rewrite IH; lia.
Qed.

Lemma count_of_cons (g b : GstBuffer) (q : list GstBuffer) :
  count_of g (b :: q) = holds (Some b) g + count_of g q.
Proof.
  unfold count_of. simpl. destruct (Nat.eq_dec b g); lia.
Qed.

Lemma net_refs_unref_queue (g : GstBuffer) (q : list GstBuffer) (l : RefLog) :
  net_refs g (unref_queue q l) = net_refs g l - count_of g q.
Proof.
  revert l. induction q as [|b q IH]; intro l.
  - unfold count_of. simpl. lia.
  - cbn [unref_queue]. rewrite IH, count_of_cons. unfold gst_buffer_unref.
    simpl. lia.
Qed.

Lemma exchange_accounts (ob : GstBuffer) (wb : bool) (w : World) (g : GstBuffer) :
  owned (exchange ob wb w) g - net_refs g (refs (exchange ob wb w))
  = owned w g - net_refs g (refs w) + holds (Some ob) g.
Proof.
  unfold exchange.
  destruct (GstBuffer_eq_dec (Some ob) (buffer (wpriv w))) as [_|_];
    [unfold owned, wpriv, with_refs; cbn; destruct (Nat.eq_dec ob g); lia|].
  destruct wb; cbn [negb];
    [|unfold owned, wpriv, with_refs; cbn; destruct (Nat.eq_dec ob g); lia].
  unfold owned, wpriv, with_refs, upd_priv, with_item, with_priv. cbn.
  rewrite net_refs_unref_queue, move_queue_spec. cbn [app].
  rewrite (count_of_cons g ob []). unfold count_of at 1. cbn.
  destruct (Nat.eq_dec ob g); lia.
Qed.

Lemma _reset_accounts (w : World) (g : GstBuffer) :
  owned (_reset w) g = 0
  /\ net_refs g (refs (_reset w)) = net_refs g (refs w) - owned w g.
Proof.
  unfold _reset.
  pose proof (gst_buffer_replace_slot (buffer (wpriv w)) None (refs w)) as Hslot.
  pose proof (gst_buffer_replace_net (buffer (wpriv w)) None (refs w) g) as Hnet.
  destruct (gst_buffer_replace (buffer (wpriv w)) None (refs w)) as [b l].
  cbn [fst snd holds] in Hslot, Hnet. subst b.
  unfold owned, wpriv, with_refs, upd_priv, with_item, with_priv. cbn.
  rewrite !net_refs_unref_queue, Hnet. unfold wpriv. lia.
Qed.

Lemma _calculate_par_keeps_buffers (w : World) (info : GstVideoInfo) :
  let w' := snd (_calculate_par w info) in
  buffer (wpriv w') = buffer (wpriv w)
  /\ bound_buffers (wpriv w') = bound_buffers (wpriv w)
  /\ potentially_unbound_buffers (wpriv w') = potentially_unbound_buffers (wpriv w)
  /\ refs w' = refs w
  /\ caps (wpriv w') = caps (wpriv w)
  /\ negotiated (wpriv w') = negotiated (wpriv w)
  /\ v_info (wpriv w') = v_info (wpriv w)
  /\ qt_item w' = qt_item w.
Proof.
  unfold _calculate_par.
  destruct (display_ratio_of (wpriv w) info) as [[num den]|]; [|easy].
  destruct (to_guint (vi_height info) mod den =? 0); [easy|].
  destruct (to_guint (vi_width info) mod num =? 0); easy.
Qed.

Lemma setCaps_accounts (c : GstCaps) (w : World) (g : GstBuffer) :
  owned (snd (setCaps c w)) g - net_refs g (refs (snd (setCaps c w)))
  = owned w g - net_refs g (refs w).
Proof.
  unfold setCaps.
  destruct (gst_caps_is_fixed c); cbn [negb]; [|reflexivity].
  destruct (qt_item w); cbn [negb]; [|reflexivity].
  destruct (same_caps (caps (wpriv w)) c); [reflexivity|].
  destruct (gst_video_info_from_caps c) as [info|]; [|reflexivity].
  set (w2 := upd_priv (set_caps (Some c)) (_reset w)).
  destruct (_calculate_par_keeps_buffers w2 info) as (Eb & Eq & Eu & Er & _).
  destruct (_reset_accounts w g) as (Ho & Hn).
  assert (Ho2 : owned w2 g = 0) by exact Ho.
  assert (Hn2 : net_refs g (refs w2) = net_refs g (refs w) - owned w g) by exact Hn.
  destruct (_calculate_par w2 info) as [ok w3]. cbn [snd] in Eb, Eq, Eu, Er.
  assert (Ho3 : owned w3 g = 0).
  { unfold owned in *. rewrite Eb, Eq, Eu. exact Ho2. }
  destruct ok; cbn [negb snd].
  - replace (owned _ g) with (owned w3 g) by reflexivity.
    replace (refs _) with (refs w3) by reflexivity.
    rewrite Ho3, Er, Hn2. lia.
  - rewrite Ho3, Er, Hn2. lia.
Qed.

Lemma setBuffer_accounts (b : GstBuffer) (w : World) (g : GstBuffer) :
  owned (snd (setBuffer b w)) g - net_refs g (refs (snd (setBuffer b w)))
  = owned w g - net_refs g (refs w).
Proof.
  unfold setBuffer.
  destruct (qt_item w); cbn [negb]; [|reflexivity].
  destruct (negotiated (wpriv w)); cbn [negb]; [|reflexivity].
  pose proof (gst_buffer_replace_slot (buffer (wpriv w)) (Some b) (refs w)) as Hslot.
  pose proof (gst_buffer_replace_net (buffer (wpriv w)) (Some b) (refs w) g) as Hnet.
  destruct (gst_buffer_replace (buffer (wpriv w)) (Some b) (refs w)) as [slot l].
  cbn [fst snd] in Hslot, Hnet. subst slot.
  unfold owned, wpriv, with_refs, upd_priv, with_item, with_priv, post_update. cbn.
  rewrite Hnet. unfold wpriv. cbn. lia.
Qed.

Lemma initWinSys_accounts (nc : option Handle) (ok : bool) (w : World) (g : GstBuffer) :
  owned (snd (initWinSys nc ok w)) g - net_refs g (refs (snd (initWinSys nc ok w)))
  = owned w g - net_refs g (refs w).
Proof.
  unfold initWinSys.
  destruct (qt_item w); cbn [negb]; [|reflexivity].
  destruct (display (wpriv w)), (qt_context (wpriv w)),
    (other_context (wpriv w)), (context (wpriv w));
    try reflexivity; destruct nc; reflexivity.
Qed.

Lemma updatePaintNode_accounts (oldNode : option QSGSimpleTextureNode) (w : World)
    (g : GstBuffer) :
  owned (snd (updatePaintNode oldNode w)) g
  - net_refs g (refs (snd (updatePaintNode oldNode w)))
  = owned w g - net_refs g (refs w) + handed (Paint oldNode) w g.
Proof.
  unfold updatePaintNode, handed.
  destruct (m_openGlContextInitialized (item w)); cbn [negb];
    [|destruct oldNode; cbn [snd]; lia].
  destruct (caps (wpriv w)) as [c|]; [|destruct oldNode; cbn [snd]; lia].
  destruct oldNode as [n|].
  - destruct (tex_getBuffer (texture n)) as [[ob|] wb]; cbn [snd fst].
    + apply exchange_accounts.
    + cbn [holds]. lia.
  - cbn. lia.
Qed.

Lemma act_accounts (a : Action) (w : World) (g : GstBuffer) :
  owned (snd (act a w)) g - net_refs g (refs (snd (act a w)))
  = owned w g - net_refs g (refs w) + handed a w g.
Proof.
  destruct a as [c|oldNode|win wrap|wd ht|].
  - cbn [handed]. rewrite Z.add_0_r. destruct c; unfold act, proxy_call.
    + unfold setSink. destruct (qt_item w); reflexivity.
    + pose proof (setBuffer_accounts b w g) as H.
      destruct (setBuffer b w). exact H.
    + pose proof (initWinSys_accounts new_context created w g) as H.
      destruct (initWinSys new_context created w). exact H.
    + pose proof (setCaps_accounts c w g) as H.
      destruct (setCaps c w). exact H.
    + reflexivity.
    + reflexivity.
    + reflexivity.
    + unfold setDAR. destruct (qt_item w); reflexivity.
    + reflexivity.
    + unfold setForceAspectRatio. destruct (qt_item w); reflexivity.
    + reflexivity.
  - pose proof (updatePaintNode_accounts oldNode w g) as H.
    unfold act. destruct (updatePaintNode oldNode w). exact H.
  - cbn [handed]. rewrite Z.add_0_r. unfold act. cbn [snd].
    unfold onSceneGraphInitialized.
    destruct win as [ctx|]; [|reflexivity].
    destruct (option_eq_dec_handle (qt_context (wpriv w)) ctx); [reflexivity|].
    destruct ctx; [|reflexivity]. destruct wrap as [[ok other] cx]. reflexivity.
  - cbn [handed]. rewrite Z.add_0_r. reflexivity.
  - cbn [handed]. rewrite Z.add_0_r. reflexivity.
Qed.

(** X1. References are neither lost nor released twice. Along any run of
    producer calls and host actions, from any state, and for every buffer:
    the references the item holds on it (current-buffer slot plus both
    queues) are what it held before, plus the references it took
    ([gst_buffer_ref]) minus those it released ([gst_buffer_unref]), plus
    the references handed to it by the texture in the paints of the run. *)
Theorem references_accounted (acts : list Action) (w : World) (g : GstBuffer) :
  owned (snd (run acts w)) g - net_refs g (refs (snd (run acts w)))
  = owned w g - net_refs g (refs w) + handed_run acts w g.
Proof.
  revert w. induction acts as [|a acts IH]; intro w.
  - simpl. lia.
  - simpl.
    pose proof (act_accounts a w g) as Ha.
    destruct (act a w) as [r w1]. cbn [snd] in *.
    specialize (IH w1). destruct (run acts w1) as [rs w2]. cbn [snd] in *. lia.
Qed.

(** *** Invariants of the runs *)

Local Abbreviation negotiation_consistent :=
  (negotiation_consistent gst_caps_is_fixed gst_video_info_from_caps).

Lemma exchange_queues_short (ob : GstBuffer) (wb : bool) (w : World) :
  queues_short w -> queues_short (exchange ob wb w).
Proof.
  intros [Hb Hu]. unfold exchange.
  destruct (GstBuffer_eq_dec (Some ob) (buffer (wpriv w))); [now split|].
  destruct wb; cbn [negb]; [|now split].
  unfold queues_short, wpriv, with_refs, upd_priv, with_item, with_priv. cbn.
  rewrite move_queue_spec. cbn [app]. split; [apply Nat.le_refl | exact Hb].
Qed.

Lemma setCaps_queues_short (c : GstCaps) (w : World) :
  queues_short w -> queues_short (snd (setCaps c w)).
Proof.
  intro H. unfold setCaps.
  destruct (gst_caps_is_fixed c); cbn [negb]; [|exact H].
  destruct (qt_item w); cbn [negb]; [|exact H].
  destruct (same_caps (caps (wpriv w)) c); [exact H|].
  destruct (gst_video_info_from_caps c) as [info|]; [|exact H].
  set (w2 := upd_priv (set_caps (Some c)) (_reset w)).
  destruct (_calculate_par_keeps_buffers w2 info) as (_ & Eq & Eu & _).
  destruct (_reset_state w) as (_ & _ & _ & _ & Rq & Ru & _).
  assert (Hq : bound_buffers (wpriv w2) = []) by exact Rq.
  assert (Hu : potentially_unbound_buffers (wpriv w2) = []) by exact Ru.
  destruct (_calculate_par w2 info) as [ok w3]. cbn [snd] in Eq, Eu.
  assert (H3 : queues_short w3).
  { unfold queues_short. rewrite Eq, Eu, Hq, Hu. simpl. split; apply Nat.le_0_l. }
  destruct ok; cbn [negb snd]; exact H3.
Qed.

Lemma act_queues_short (a : Action) (w : World) :
  queues_short w -> queues_short (snd (act a w)).
Proof.
  intro H. destruct a as [c|oldNode|win wrap|wd ht|].
  - destruct c; unfold act, proxy_call; try exact H.
    + unfold setSink. destruct (qt_item w); exact H.
    + pose proof (setBuffer_keeps_tracker b w) as (Eb & Eu & _).
      destruct (setBuffer b w) as [r w']. cbn [snd] in *.
      unfold queues_short. rewrite Eb, Eu. exact H.
    + unfold initWinSys. destruct (qt_item w); cbn [negb]; [|exact H].
      destruct (display (wpriv w)), (qt_context (wpriv w)),
        (other_context (wpriv w)), (context (wpriv w));
        try exact H; destruct new_context; exact H.
    + pose proof (setCaps_queues_short c w H) as H'.
      destruct (setCaps c w). exact H'.
    + unfold setDAR. destruct (qt_item w); exact H.
    + unfold setForceAspectRatio. destruct (qt_item w); exact H.
  - unfold act.
    destruct (updatePaintNode_cases oldNode w)
      as [E|(ob & wb & E)];
      destruct (updatePaintNode oldNode w) as [r w']; cbn [snd] in *; subst w'.
    + exact H.
    + now apply exchange_queues_short.
  - unfold act. cbn [snd]. unfold onSceneGraphInitialized.
    destruct win as [ctx|]; [|exact H].
    destruct (option_eq_dec_handle (qt_context (wpriv w)) ctx); [exact H|].
    destruct ctx; [|exact H]. destruct wrap as [[ok other] cx]. exact H.
  - exact H.
  - exact H.
Qed.

(** X2. The history is bounded: in every state reached from a fresh item
    by producer calls and host actions, the bound queue and the
    potentially-unbound queue hold at most one buffer each. *)
Theorem queues_hold_at_most_one (disp : option Handle) (acts : list Action) :
  queues_short (snd (run acts (QtGLVideoItem_new disp))).
Proof.
  assert (G : forall w, queues_short w -> queues_short (snd (run acts w))).
  { induction acts as [|a acts IH]; intros w H.
    - exact H.
    - simpl. pose proof (act_queues_short a w H) as Ha.
      destruct (act a w) as [r w1]. cbn [snd] in Ha.
      specialize (IH w1 Ha). destruct (run acts w1) as [rs w2]. exact IH. }
  apply G. split; apply Nat.le_0_l.
Qed.

Lemma _calculate_par_implicit_size (w : World) (info : GstVideoInfo) :
  fst (_calculate_par w info) = true ->
  implicitWidth (item (snd (_calculate_par w info))) = vi_width info
  /\ implicitHeight (item (snd (_calculate_par w info))) = vi_height info.
Proof.
  unfold _calculate_par.
  destruct (display_ratio_of (wpriv w) info) as [[num den]|]; [|discriminate].
  destruct (to_guint (vi_height info) mod den =? 0); [easy|].
  destruct (to_guint (vi_width info) mod num =? 0); easy.
Qed.

Lemma _calculate_par_fails_unchanged (w : World) (info : GstVideoInfo) :
  fst (_calculate_par w info) = false -> snd (_calculate_par w info) = w.
Proof.
  unfold _calculate_par.
  destruct (display_ratio_of (wpriv w) info) as [[num den]|]; [|reflexivity].
  destruct (to_guint (vi_height info) mod den =? 0); [discriminate|].
  destruct (to_guint (vi_width info) mod num =? 0); discriminate.
Qed.

Lemma exchange_negotiation_consistent (ob : GstBuffer) (wb : bool) (w : World) :
  negotiation_consistent w -> negotiation_consistent (exchange ob wb w).
Proof.
  intro H. unfold exchange.
  destruct (GstBuffer_eq_dec (Some ob) (buffer (wpriv w))); [exact H|].
  destruct wb; exact H.
Qed.

Lemma setCaps_negotiation_consistent (c : GstCaps) (w : World) :
  negotiation_consistent w -> negotiation_consistent (snd (setCaps c w)).
Proof.
  intro H. unfold setCaps.
  destruct (gst_caps_is_fixed c) eqn:Hfixed; cbn [negb]; [|exact H].
  destruct (qt_item w); cbn [negb]; [|exact H].
  destruct (same_caps (caps (wpriv w)) c); [exact H|].
  destruct (gst_video_info_from_caps c) as [info|] eqn:Hinfo; [|exact H].
  set (w2 := upd_priv (set_caps (Some c)) (_reset w)).
  destruct (_reset_state w) as (Rb & _ & Rn & _).
  assert (Hb2 : buffer (wpriv w2) = None) by exact Rb.
  assert (Hn2 : negotiated (wpriv w2) = false) by exact Rn.
  assert (Hc2 : caps (wpriv w2) = Some c) by reflexivity.
  destruct (_calculate_par_keeps_buffers w2 info) as (Eb & _ & _ & _ & Ec & En & _).
  pose proof (_calculate_par_implicit_size w2 info) as Hsize.
  pose proof (_calculate_par_fails_unchanged w2 info) as Hfail.
  destruct (_calculate_par w2 info) as [ok w3]. cbn [fst snd] in *.
  destruct ok; cbn [negb snd].
  - destruct (Hsize eq_refl) as [Hw Hh]. split.
    + left. cbn. fold (wpriv w3). congruence.
    + right. exists c. cbn. fold (wpriv w3). repeat split; congruence.
  - split; [left | left]; congruence.
Qed.

Lemma act_negotiation_consistent (a : Action) (w : World) :
  negotiation_consistent w -> negotiation_consistent (snd (act a w)).
Proof.
  intro H. destruct a as [c|oldNode|win wrap|wd ht|].
  - destruct c; unfold act, proxy_call; try exact H.
    + unfold setSink. destruct (qt_item w); exact H.
    + unfold setBuffer. destruct (qt_item w); cbn [negb]; [|exact H].
      destruct (negotiated (wpriv w)) eqn:Hneg; cbn [negb]; [|exact H].
      destruct (gst_buffer_replace _ _ _) as [slot l]. cbn [snd].
      destruct H as [_ H2]. split; [right; exact Hneg|].
      destruct H2 as [H2|H2]; [left; exact H2 | right; exact H2].
    + unfold initWinSys. destruct (qt_item w); cbn [negb]; [|exact H].
      destruct (display (wpriv w)), (qt_context (wpriv w)),
        (other_context (wpriv w)), (context (wpriv w));
        try exact H; destruct new_context; exact H.
    + pose proof (setCaps_negotiation_consistent c w H) as H'.
      destruct (setCaps c w). exact H'.
    + unfold setDAR. destruct (qt_item w); exact H.
    + unfold setForceAspectRatio. destruct (qt_item w); exact H.
  - unfold act.
    destruct (updatePaintNode_cases oldNode w) as [E|(ob & wb & E)];
      destruct (updatePaintNode oldNode w) as [r w']; cbn [snd] in *; subst w'.
    + exact H.
    + now apply exchange_negotiation_consistent.
  - unfold act. cbn [snd]. unfold onSceneGraphInitialized.
    destruct win as [ctx|]; [|exact H].
    destruct (option_eq_dec_handle (qt_context (wpriv w)) ctx); [exact H|].
    destruct ctx; [|exact H]. destruct wrap as [[ok other] cx]. exact H.
  - exact H.
  - exact H.
Qed.

(** X3. Negotiation state is consistent in every state reached from a fresh
    item by producer calls and host actions: there is a current buffer only
    if the item is negotiated, and a negotiated item stores fixed caps, the
    video info parsed from exactly these caps, and shows the size of that
    video info as its implicit size. *)
Theorem negotiation_stays_consistent (disp : option Handle) (acts : list Action) :
  negotiation_consistent (snd (run acts (QtGLVideoItem_new disp))).
Proof.
  assert (G : forall w, negotiation_consistent w ->
                        negotiation_consistent (snd (run acts w))).
  { induction acts as [|a acts IH]; intros w H.
    - exact H.
    - simpl. pose proof (act_negotiation_consistent a w H) as Ha.
      destruct (act a w) as [r w1]. cbn [snd] in Ha.
      specialize (IH w1 Ha). destruct (run acts w1) as [rs w2]. exact IH. }
  apply G. split; left; reflexivity.
Qed.

(** *** Reset and teardown *)

(** X4. [_reset] releases every reference the item holds, each exactly
    once, and keeps none; the references it takes and releases on a buffer
    go down by what the item held on it. Resetting twice is resetting
    once. *)
Theorem _reset_releases_all (w : World) (g : GstBuffer) :
  owned (_reset w) g = 0
  /\ net_refs g (refs (_reset w)) = net_refs g (refs w) - owned w g
  /\ _reset (_reset w) = _reset w.
Proof.
  destruct (_reset_accounts w g) as [Ho Hn].
  split; [exact Ho|]. split; [exact Hn|].
  unfold _reset.
  pose proof (gst_buffer_replace_slot (buffer (wpriv w)) None (refs w)) as Hslot.
  destruct (gst_buffer_replace (buffer (wpriv w)) None (refs w)) as [b l].
  cbn [fst] in Hslot. subst b. reflexivity.
Qed.

(** X5. The destructor leaves nothing behind: it releases every reference
    held in the current-buffer slot and in both queues, each exactly once,
    and it detaches the proxy, so that every later call through the proxy
    returns what a detached proxy returns and changes nothing. *)
Theorem QtGLVideoItem_destroy_releases_all (w : World) (g : GstBuffer)
    (cs : list ProxyCall) :
  let w' := QtGLVideoItem_destroy w in
  owned w' g = 0
  /\ net_refs g (refs w') = net_refs g (refs w) - owned w g
  /\ buffer (wpriv w') = None
  /\ caps (wpriv w') = None
  /\ run_calls cs w' = (map detached_ret cs, w').
Proof.
  intro w'. subst w'.
  assert (Hdet : qt_item (QtGLVideoItem_destroy w) = false).
  { unfold QtGLVideoItem_destroy.
    destruct (gst_buffer_replace _ _ _) as [b l]. reflexivity. }
  assert (Hcalls : forall w0, qt_item w0 = false ->
                              run_calls cs w0 = (map detached_ret cs, w0)).
  { induction cs as [|c cs IH]; intros w0 H0; simpl.
    - reflexivity.
    - rewrite (proxy_call_detached c w0 H0). rewrite (IH w0 H0). reflexivity. }
  rewrite (Hcalls _ Hdet).
  unfold QtGLVideoItem_destroy.
  set (l0 := unref_queue (bound_buffers (wpriv (invalidateRef w)))
               (unref_queue (potentially_unbound_buffers (wpriv (invalidateRef w)))
                  (refs (invalidateRef w)))).
  pose proof (gst_buffer_replace_slot (buffer (wpriv (invalidateRef w))) None l0) as Hslot.
  pose proof (gst_buffer_replace_net (buffer (wpriv (invalidateRef w))) None l0 g) as Hnet.
  destruct (gst_buffer_replace (buffer (wpriv (invalidateRef w))) None l0) as [b l].
  cbn [fst snd holds] in Hslot, Hnet. subst b.
  assert (Hl0 : net_refs g l0
                = net_refs g (refs w)
                  - count_of g (potentially_unbound_buffers (wpriv w))
                  - count_of g (bound_buffers (wpriv w))).
  { unfold l0. rewrite !net_refs_unref_queue. reflexivity. }
  unfold owned, wpriv, with_refs, upd_priv, with_item, with_priv, invalidateRef in *.
  cbn in *. repeat split; lia.
Qed.

(** *** Negotiation, continued *)

Lemma same_caps_refl (c : GstCaps) : same_caps (Some c) c = true.
Proof.
  unfold same_caps.
  destruct (gst_caps_is_equal_fixed c c) as [_|Hne]; [reflexivity | now elim Hne].
Qed.

Lemma same_caps_false (cur : option GstCaps) (c : GstCaps) :
  cur <> Some c -> same_caps cur c = false.
Proof.
  intro H. unfold same_caps. destruct cur as [c0|]; [|reflexivity].
  destruct (gst_caps_is_equal_fixed c0 c); [|reflexivity]. subst. now elim H.
Qed.

(** What [setCaps] does with new caps whose ratio can be computed. *)
Lemma setCaps_new_caps_state (c : GstCaps) (info : GstVideoInfo) (w : World) :
  gst_caps_is_fixed c = true ->
  qt_item w = true ->
  same_caps (caps (wpriv w)) c = false ->
  gst_video_info_from_caps c = Some info ->
  fst (_calculate_par (upd_priv (set_caps (Some c)) (_reset w)) info) = true ->
  setCaps c w
  = (true,
     upd_priv (fun p => set_negotiated true (set_v_info info p))
       (snd (_calculate_par (upd_priv (set_caps (Some c)) (_reset w)) info))).
Proof.
  intros Hfixed Hitem Hsame Hinfo Hok.
  unfold setCaps. rewrite Hfixed, Hitem, Hsame, Hinfo. cbn [negb].
  destruct (_calculate_par (upd_priv (set_caps (Some c)) (_reset w)) info)
    as [ok w3].
  cbn [fst] in Hok. subst ok. reflexivity.
Qed.

(** X6. Negotiating the same caps again changes nothing: whenever [setCaps]
    returned [TRUE], calling it again with the same caps right away returns
    [TRUE] and leaves the state as the first call left it; no second reset
    happens, so a buffer delivered in between would be kept. *)
Theorem setCaps_repeated (c : GstCaps) (w : World) :
  fst (setCaps c w) = true ->
  setCaps c (snd (setCaps c w)) = (true, snd (setCaps c w)).
Proof.
  intro Hok.
  assert (Hfixed : gst_caps_is_fixed c = true).
  { unfold setCaps in Hok. destruct (gst_caps_is_fixed c); [reflexivity|].
    discriminate Hok. }
  assert (Hitem : qt_item w = true).
  { unfold setCaps in Hok. rewrite Hfixed in Hok. cbn [negb] in Hok.
    destruct (qt_item w); [reflexivity | discriminate Hok]. }
  destruct (same_caps (caps (wpriv w)) c) eqn:Hsame.
  - assert (E : setCaps c w = (true, w)).
    { unfold setCaps. now rewrite Hfixed, Hitem, Hsame. }
    rewrite E. cbn [snd]. exact E.
  - destruct (gst_video_info_from_caps c) as [info|] eqn:Hinfo.
    + set (w2 := upd_priv (set_caps (Some c)) (_reset w)).
      assert (Hpar : fst (_calculate_par w2 info) = true).
      { unfold setCaps in Hok. rewrite Hfixed, Hitem, Hsame, Hinfo in Hok.
        cbn [negb] in Hok. fold w2 in Hok.
        destruct (_calculate_par w2 info) as [[|] w3]; [reflexivity|].
        discriminate Hok. }
      rewrite (setCaps_new_caps_state c info w Hfixed Hitem Hsame Hinfo Hpar).
      cbn [snd]. fold w2.
      destruct (_calculate_par_keeps_buffers w2 info)
        as (_ & _ & _ & _ & Ec & _ & _ & Ei).
      destruct (_reset_state w) as (_ & _ & _ & _ & _ & _ & _ & _ & _ & _ & _ & _ & Rit).
      set (w3 := snd (_calculate_par w2 info)) in *.
      set (w4 := upd_priv (fun p => set_negotiated true (set_v_info info p)) w3).
      assert (Hc4 : caps (wpriv w4) = Some c) by exact Ec.
      assert (Hi4 : qt_item w4 = true).
      { change (qt_item w3 = true). rewrite Ei. change (qt_item (_reset w) = true).
        now rewrite Rit. }
      unfold setCaps. rewrite Hfixed, Hi4, Hc4, same_caps_refl. reflexivity.
    + unfold setCaps in Hok. rewrite Hfixed, Hitem, Hsame, Hinfo in Hok.
      discriminate Hok.
Qed.

(** X8. A successful renegotiation starts clean. When [setCaps] gets new
    fixed caps that parse and whose display ratio can be computed, it
    returns [TRUE]; the item is negotiated with these caps and their video
    info, and its implicit size is the size of the video; the buffer and the
    queued buffers of the previous format are all released, each once, and
    none is kept; the next buffer delivered is accepted. *)
Theorem setCaps_renegotiates (c : GstCaps) (info : GstVideoInfo) (num den : Z)
    (w : World) (g : GstBuffer) :
  gst_caps_is_fixed c = true ->
  qt_item w = true ->
  caps (wpriv w) <> Some c ->
  gst_video_info_from_caps c = Some info ->
  display_ratio_of (wpriv w) info = Some (num, den) ->
  let w' := snd (setCaps c w) in
  fst (setCaps c w) = true
  /\ negotiated (wpriv w') = true
  /\ caps (wpriv w') = Some c
  /\ v_info (wpriv w') = info
  /\ implicitWidth (item w') = vi_width info
  /\ implicitHeight (item w') = vi_height info
  /\ buffer (wpriv w') = None
  /\ bound_buffers (wpriv w') = []
  /\ potentially_unbound_buffers (wpriv w') = []
  /\ net_refs g (refs w') = net_refs g (refs w) - owned w g
  /\ forall b, fst (setBuffer b w') = None
               /\ buffer (wpriv (snd (setBuffer b w'))) = Some b.
Proof.
  intros Hfixed Hitem Hcaps Hinfo Hratio w'.
  pose proof (same_caps_false _ _ Hcaps) as Hsame.
  set (w2 := upd_priv (set_caps (Some c)) (_reset w)).
  destruct (_reset_state w)
    as (Rb & _ & _ & _ & Rq & Ru & _ & Rpn & Rpd & _ & _ & _ & Rit).
  assert (Hratio2 : display_ratio_of (wpriv w2) info = Some (num, den)).
  { rewrite <- Hratio. apply display_ratio_of_reads_par; [exact Rpn | exact Rpd]. }
  pose proof (_calculate_par_succeeds w2 info num den Hratio2) as Hpar.
  subst w'.
  rewrite (setCaps_new_caps_state c info w Hfixed Hitem Hsame Hinfo Hpar).
  cbn [fst snd]. fold w2.
  destruct (_calculate_par_keeps_buffers w2 info)
    as (Eb & Eq & Eu & Er & Ec & _ & _ & Ei).
  destruct (_calculate_par_implicit_size w2 info Hpar) as [Hw Hh].
  destruct (_reset_accounts w g) as [_ Hn].
  set (w3 := snd (_calculate_par w2 info)) in *.
  set (w4 := upd_priv (fun p => set_negotiated true (set_v_info info p)) w3).
  assert (Hi4 : qt_item w4 = true).
  { change (qt_item w3 = true). rewrite Ei. change (qt_item (_reset w) = true).
    now rewrite Rit. }
  assert (Hn4 : negotiated (wpriv w4) = true) by reflexivity.
  split; [reflexivity|]. split; [exact Hn4|]. split; [exact Ec|].
  split; [reflexivity|]. split; [exact Hw|]. split; [exact Hh|].
  split; [change (buffer (wpriv w3) = None); rewrite Eb; exact Rb|].
  split; [change (bound_buffers (wpriv w3) = []); rewrite Eq; exact Rq|].
  split; [change (potentially_unbound_buffers (wpriv w3) = []); rewrite Eu; exact Ru|].
  split; [change (net_refs g (refs w3) = net_refs g (refs w) - owned w g);
          rewrite Er; exact Hn|].
  intro b. destruct (setBuffer_delivers b w4 Hi4 Hn4) as (Hr & Hb & _).
  split; assumption.
Qed.

(** *** The pointer mapping, continued *)

Lemma CLAMP_monotone (x y low high : Q) :
  (low <= high)%Q -> (x <= y)%Q -> (CLAMP x low high <= CLAMP y low high)%Q.
Proof.
  intros Hlh Hxy. unfold CLAMP.
  destruct (Qlt_le_dec high x) as [Hx|Hx], (Qlt_le_dec high y) as [Hy|Hy].
  - apply Qle_refl.
  - exfalso. apply (Qlt_irrefl high).
    eapply Qlt_le_trans; [exact Hx|]. apply Qle_trans with y; assumption.
  - destruct (Qlt_le_dec x low); assumption.
  - destruct (Qlt_le_dec x low) as [Hxl|Hxl], (Qlt_le_dec y low) as [Hyl|Hyl].
    + apply Qle_refl.
    + assumption.
    + exfalso. apply (Qlt_irrefl low).
      eapply Qle_lt_trans; [exact Hxl|]. apply Qle_lt_trans with y; assumption.
    + assumption.
Qed.

Lemma scale_monotone (o len : Z) (s x1 x2 : Q) :
  0 < len -> (0 <= s)%Q -> (x1 <= x2)%Q ->
  ((x1 - inject_Z o) / inject_Z len * s <= (x2 - inject_Z o) / inject_Z len * s)%Q.
Proof.
  intros Hlen Hs Hx.
  apply Qmult_le_compat_r; [|exact Hs].
  unfold Qdiv. apply Qmult_le_compat_r.
  - unfold Qminus. apply Qplus_le_compat; [exact Hx | apply Qle_refl].
  - apply Qinv_le_0_compat. apply inject_Z_nonneg. lia.
Qed.

(** One coordinate of [mapPointToStreamSize]: [o] and [len] are the origin
    and the extent of the destination rectangle on that axis, [s] is the
    size of the stream. *)
Lemma coordinate_monotone (o len : Z) (s x1 x2 : Q) :
  (0 <= s)%Q -> (x1 <= x2)%Q ->
  (CLAMP (if 0 <? len then (x1 - inject_Z o) / inject_Z len * s else 0) 0 s
   <= CLAMP (if 0 <? len then (x2 - inject_Z o) / inject_Z len * s else 0) 0 s)%Q.
Proof.
  intros Hs Hx. destruct (0 <? len) eqn:Hlen.
  - apply Z.ltb_lt in Hlen. apply CLAMP_monotone; [exact Hs|].
    now apply scale_monotone.
  - apply Qle_refl.
Qed.

(** X9. The pointer mapping keeps the order of points, axis by axis: for a
    video info whose dimensions are not negative, a point further right
    never maps to a smaller stream abscissa and a point further down never
    maps to a smaller stream ordinate, whatever the other coordinate is. *)
Theorem mapPointToStreamSize_monotone (x1 x2 y1 y2 : Q) (w : World) :
  0 <= vi_width (v_info (wpriv w)) ->
  0 <= vi_height (v_info (wpriv w)) ->
  ((x1 <= x2)%Q ->
   (fst (mapPointToStreamSize (x1, y1) w) <= fst (mapPointToStreamSize (x2, y2) w))%Q)
  /\ ((y1 <= y2)%Q ->
      (snd (mapPointToStreamSize (x1, y1) w) <= snd (mapPointToStreamSize (x2, y2) w))%Q).
Proof.
  intros Hw Hh. apply inject_Z_nonneg in Hw, Hh.
  unfold mapPointToStreamSize. cbn [fst snd]. split; intro H.
  - now apply coordinate_monotone.
  - now apply coordinate_monotone.
Qed.

(** X10. Points outside the destination rectangle map to the border of the
    stream: when the rectangle has a positive extent and the video info has
    non-negative dimensions, a point at or left of the rectangle maps to
    abscissa 0 and a point at or right of it to the stream width; the same
    holds for points above and below with the stream height. *)
Theorem mapPointToStreamSize_outside (x y : Q) (w : World) :
  0 <= vi_width (v_info (wpriv w)) ->
  0 <= vi_height (v_info (wpriv w)) ->
  let result := fitStreamToAllocatedSize w in
  0 < rect_w result ->
  0 < rect_h result ->
  let p := mapPointToStreamSize (x, y) w in
  ((x <= inject_Z (rect_x result))%Q -> (fst p == 0)%Q)
  /\ ((inject_Z (rect_x result + rect_w result) <= x)%Q ->
      (fst p == inject_Z (vi_width (v_info (wpriv w))))%Q)
  /\ ((y <= inject_Z (rect_y result))%Q -> (snd p == 0)%Q)
  /\ ((inject_Z (rect_y result + rect_h result) <= y)%Q ->
      (snd p == inject_Z (vi_height (v_info (wpriv w))))%Q).
Proof.
  intros Hw Hh result Hrw Hrh p.
  apply inject_Z_nonneg in Hw, Hh.
  assert (Bw : (0 <? rect_w result) = true) by now apply Z.ltb_lt.
  assert (Bh : (0 <? rect_h result) = true) by now apply Z.ltb_lt.
  subst p. unfold mapPointToStreamSize. fold result. rewrite Bw, Bh.
  cbn [fst snd].
  set (sw := inject_Z (vi_width (v_info (wpriv w)))) in *.
  set (sh := inject_Z (vi_height (v_info (wpriv w)))) in *.
  split; [|split; [|split]]; intro H.
  - apply Qle_antisym; [|apply CLAMP_range; exact Hw].
    apply Qle_trans
      with (CLAMP ((inject_Z (rect_x result) - inject_Z (rect_x result))
                   / inject_Z (rect_w result) * sw) 0 sw).
    + apply CLAMP_monotone; [exact Hw|]. now apply scale_monotone.
    + rewrite (near_edge (rect_x result) (rect_w result) sw Hrw Hw). apply Qle_refl.
  - apply Qle_antisym; [apply CLAMP_range; exact Hw|].
    apply Qle_trans
      with (CLAMP ((inject_Z (rect_x result + rect_w result) - inject_Z (rect_x result))
                   / inject_Z (rect_w result) * sw) 0 sw).
    + rewrite (far_edge (rect_x result) (rect_w result) sw Hrw Hw). apply Qle_refl.
    + apply CLAMP_monotone; [exact Hw|]. now apply scale_monotone.
  - apply Qle_antisym; [|apply CLAMP_range; exact Hh].
    apply Qle_trans
      with (CLAMP ((inject_Z (rect_y result) - inject_Z (rect_y result))
                   / inject_Z (rect_h result) * sh) 0 sh).
    + apply CLAMP_monotone; [exact Hh|]. now apply scale_monotone.
    + rewrite (near_edge (rect_y result) (rect_h result) sh Hrh Hh). apply Qle_refl.
  - apply Qle_antisym; [apply CLAMP_range; exact Hh|].
    apply Qle_trans
      with (CLAMP ((inject_Z (rect_y result + rect_h result) - inject_Z (rect_y result))
                   / inject_Z (rect_h result) * sh) 0 sh).
    + rewrite (far_edge (rect_y result) (rect_h result) sh Hrh Hh). apply Qle_refl.
    + apply CLAMP_monotone; [exact Hh|]. now apply scale_monotone.
Qed.

(** *** GL set-up *)

(** X11. Once [initWinSys] has returned [TRUE] the producer gets all it
    asks for: the display, the wrapped Qt context and the GStreamer context
    are there, so [getDisplay], [getQtContext] and [getContext] return
    objects; and if the Qt GL context was known too, [initWinSys] called
    again returns [TRUE] and changes nothing. *)
Theorem initWinSys_provides_contexts (new_context : option Handle) (created : bool)
    (w : World) :
  fst (initWinSys new_context created w) = true ->
  let w' := snd (initWinSys new_context created w) in
  (exists d, getDisplay w' = Some d)
  /\ (exists o, getQtContext w' = Some o)
  /\ (exists c, getContext w' = Some c)
  /\ (qt_context (wpriv w) <> None ->
      forall nc ok, initWinSys nc ok w' = (true, w')).
Proof.
  unfold initWinSys, getDisplay, getQtContext, getContext, wpriv.
  destruct (qt_item w) eqn:Hitem; cbn [negb]; [|discriminate].
  destruct (display (priv (item w))) as [d|] eqn:Hd; [|
    destruct (qt_context (priv (item w))), (other_context (priv (item w))),
      (context (priv (item w))); discriminate].
  destruct (other_context (priv (item w))) as [o|] eqn:Ho; [|
    destruct (qt_context (priv (item w))), (context (priv (item w))); discriminate].
  destruct (qt_context (priv (item w))) as [q|] eqn:Hq,
           (context (priv (item w))) as [c|] eqn:Hc; cbn [fst snd].
  - intros _. rewrite ?Hitem, ?Hd, ?Ho, ?Hq, ?Hc. cbn [negb].
    repeat split; eauto.
  - destruct new_context as [nc|]; [|discriminate]. intros _. cbn.
    rewrite ?Hitem, ?Hd, ?Ho, ?Hq, ?Hc. cbn. repeat split; eauto.
  - destruct new_context as [nc|]; [|discriminate]. intros _. cbn.
    rewrite ?Hitem, ?Hd, ?Ho, ?Hq, ?Hc. cbn. repeat split; eauto.
    intro H. now elim H.
  - destruct new_context as [nc|]; [|discriminate]. intros _. cbn.
    rewrite ?Hitem, ?Hd, ?Ho, ?Hq, ?Hc. cbn. repeat split; eauto. intro H. now elim H.
Qed.

Lemma onSceneGraphInitialized_same_context (ctx : option Handle)
    (wrap : bool * option Handle * option Handle) (w : World) :
  qt_context (wpriv w) = ctx ->
  onSceneGraphInitialized (Some ctx) wrap w = w.
Proof.
  intro E. unfold onSceneGraphInitialized.
  destruct (option_eq_dec_handle (qt_context (wpriv w)) ctx) as [_|N];
    [reflexivity | now elim N].
Qed.

Lemma onSceneGraphInitialized_context (ctx : option Handle)
    (wrap : bool * option Handle * option Handle) (w : World) :
  qt_context (wpriv (onSceneGraphInitialized (Some ctx) wrap w)) = ctx.
Proof.
  unfold onSceneGraphInitialized.
  destruct (option_eq_dec_handle (qt_context (wpriv w)) ctx) as [E|_];
    [exact E|].
  destruct ctx; [|reflexivity]. destruct wrap as [[ok other] cx]. reflexivity.
Qed.

(** X12. The scene graph is set up once per GL context:
    [onSceneGraphInitialized] called again for the same window context does
    nothing, whatever wrapping the GL utility would return the second
    time. *)
Theorem onSceneGraphInitialized_once (win : option (option Handle))
    (wrap wrap2 : bool * option Handle * option Handle) (w : World) :
  onSceneGraphInitialized win wrap2 (onSceneGraphInitialized win wrap w)
  = onSceneGraphInitialized win wrap w.
Proof.
  destruct win as [ctx|]; [|reflexivity].
  apply onSceneGraphInitialized_same_context.
  apply onSceneGraphInitialized_context.
Qed.

(** X13. Taking the item out of its window forgets the Qt GL context, so
    that the next scene-graph initialisation wraps the context again, even
    if it is the context the item had before: the item then has the window's
    context, the contexts the GL utility returned and its success flag. *)
Theorem handleWindowChanged_forgets_context (h : Handle)
    (ok : bool) (other cx : option Handle) (w : World) :
  let w' := onSceneGraphInitialized (Some (Some h)) (ok, other, cx)
              (snd (handleWindowChanged None w)) in
  fst (handleWindowChanged None w) = None
  /\ qt_context (wpriv (snd (handleWindowChanged None w))) = None
  /\ qt_context (wpriv w') = Some h
  /\ other_context (wpriv w') = other
  /\ context (wpriv w') = cx
  /\ itemInitialized w' = ok.
Proof.
  unfold handleWindowChanged, onSceneGraphInitialized, itemInitialized. cbn.
  destruct (option_eq_dec_handle None (Some h)) as [N|_]; [discriminate N|].
  repeat split.
Qed.

(** *** Painting and delivering, continued *)

(** X14. A paint only touches the tracker: whatever node it gets, the state
    after [updatePaintNode] differs from the state before at most in the two
    queues and in the reference log. In particular a paint never takes the
    current buffer out of its slot and never changes the negotiated caps,
    the geometry or the proxy. *)
Theorem updatePaintNode_touches_tracker_only (oldNode : option QSGSimpleTextureNode)
    (w : World) :
  without_tracker (snd (updatePaintNode oldNode w)) = without_tracker w.
Proof.
  destruct (updatePaintNode_cases oldNode w) as [E|(ob & wb & E)]; rewrite E.
  - reflexivity.
  - unfold exchange.
    destruct (GstBuffer_eq_dec (Some ob) (buffer (wpriv w))); [reflexivity|].
    destruct wb; reflexivity.
Qed.

Lemma setBuffer_dropped (b : GstBuffer) (w : World) :
  qt_item w = false \/ negotiated (wpriv w) = false ->
  snd (setBuffer b w) = w /\ fst (setBuffer b w) <> None.
Proof.
  intros [H|H]; unfold setBuffer.
  - rewrite H. cbn. split; [reflexivity | discriminate].
  - rewrite H. destruct (qt_item w); cbn; split; (reflexivity || discriminate).
Qed.

(** X15. Buffers delivered to a detached or unnegotiated item are all
    dropped: no delivery of the sequence changes the state (no buffer is
    reffed, no update is queued) and each one logs a warning. *)
Theorem deliver_all_dropped (bs : list GstBuffer) (w : World) :
  qt_item w = false \/ negotiated (wpriv w) = false ->
  snd (deliver_all bs w) = w
  /\ Forall (fun r => r <> None) (fst (deliver_all bs w)).
Proof.
  intro H. induction bs as [|b bs IH]; simpl.
  - split; [reflexivity | constructor].
  - destruct (setBuffer_dropped b w H) as [Es Er].
    destruct (setBuffer b w) as [r w1]. cbn [fst snd] in Es, Er. subst w1.
    destruct (deliver_all bs w) as [rs w2]. cbn [fst snd] in *.
    destruct IH as [IHs IHr]. split; [exact IHs | constructor; assumption].
Qed.

(** X16. Every accepted buffer queues one redraw: after a sequence of
    deliveries to an attached, negotiated item the number of queued [update]
    calls has grown by the length of the sequence, and the two queues are
    as before. *)
Theorem deliver_all_posts_updates (bs : list GstBuffer) (w : World) :
  qt_item w = true ->
  negotiated (wpriv w) = true ->
  let w' := snd (deliver_all bs w) in
  update_posted (item w') = (update_posted (item w) + length bs)%nat
  /\ bound_buffers (wpriv w') = bound_buffers (wpriv w)
  /\ potentially_unbound_buffers (wpriv w') = potentially_unbound_buffers (wpriv w).
Proof.
  intros Hitem Hneg w'. subst w'.
  destruct (deliver_all_keeps_tracker bs w) as (Eb & Eu & _).
  split; [|split; assumption]. clear Eb Eu.
  revert w Hitem Hneg. induction bs as [|b bs IH]; intros w Hitem Hneg.
  - simpl. now rewrite Nat.add_0_r.
  - destruct (setBuffer_delivers b w Hitem Hneg) as (_ & _ & Hi & Hn & Hu & _).
    simpl. destruct (setBuffer b w) as [r w1]. cbn [snd] in *.
    specialize (IH w1 Hi Hn). destruct (deliver_all bs w1) as [rs w2].
    cbn [snd] in *. rewrite IH, Hu. lia.
Qed.

(** *** Pointer events *)

Lemma mapPointToStreamSize_in_stream (pos : Q * Q) (w : World) :
  0 <= vi_width (v_info (wpriv w)) ->
  0 <= vi_height (v_info (wpriv w)) ->
  (0 <= fst (mapPointToStreamSize pos w)
   <= inject_Z (vi_width (v_info (wpriv w))))%Q
  /\ (0 <= snd (mapPointToStreamSize pos w)
      <= inject_Z (vi_height (v_info (wpriv w))))%Q.
Proof.
  intros Hw Hh. apply inject_Z_nonneg in Hw, Hh.
  unfold mapPointToStreamSize. cbn [fst snd].
  split; now apply CLAMP_range.
Qed.

(** X17. Mouse events reach the sink in stream coordinates: for a video
    info whose dimensions are not negative, every event that a button press
    or release or a hover move sends carries coordinates inside
    [[0, width] x [0, height]] of the stream, wherever the pointer is on the
    item. *)
Theorem mouse_events_in_stream (w : World) :
  0 <= vi_width (v_info (wpriv w)) ->
  0 <= vi_height (v_info (wpriv w)) ->
  (forall b pos type s e,
     snd (sendMouseEvent b pos type s w) = Some e -> in_stream w e)
  /\ (forall pos oldPos s e,
        hoverMoveEvent pos oldPos s w = Some e -> in_stream w e).
Proof.
  intros Hw Hh. split.
  - intros b pos type s e. unfold sendMouseEvent. cbn [snd].
    destruct (sink (wpriv w)); [|discriminate].
    intro E. injection E as <-.
    exact (mapPointToStreamSize_in_stream (QPointF_of_QPoint pos) w Hw Hh).
  - intros pos oldPos s e. unfold hoverMoveEvent.
    destruct (m_hovering s); cbn [negb]; [|discriminate].
    destruct (QPoint_eq_dec pos oldPos); [discriminate|].
    destruct (sink (wpriv w)); [|discriminate].
    intro E. injection E as <-.
    exact (mapPointToStreamSize_in_stream (QPointF_of_QPoint pos) w Hw Hh).
Qed.

(** X18. Without a sink nothing is sent: when the item has no sink element,
    wheel, hover-move, press and release events send no navigation event;
    a press or release still records its button. *)
Theorem no_sink_no_events (w : World) :
  sink (wpriv w) = None ->
  (forall position delta, wheelEvent position delta w = None)
  /\ (forall pos oldPos s, hoverMoveEvent pos oldPos s w = None)
  /\ (forall b pos type s,
        snd (sendMouseEvent b pos type s w) = None
        /\ m_mousePressedButton (fst (sendMouseEvent b pos type s w))
           = match b with
             | LeftButton => 1
             | RightButton => 2
             | OtherButton => 0
             end).
Proof.
  intro H. split; [|split].
  - intros. unfold wheelEvent. now rewrite H.
  - intros. unfold hoverMoveEvent. rewrite H.
    destruct (m_hovering s); cbn [negb]; [|reflexivity].
    destruct (QPoint_eq_dec pos oldPos); reflexivity.
  - intros. unfold sendMouseEvent. rewrite H. split; reflexivity.
Qed.

(** X19. The button of a hover move is the last button pressed or released:
    after a press or a release of the left or the right button (the event
    type makes no difference), a hover move to a new position over a
    hovered item with a sink is sent as "mouse-move" with button 1, after
    any other button with button 0, at the mapped position; once the
    pointer has left the item no hover move is sent. *)
Theorem hover_move_after_button (b : MouseButton) (p pos oldPos : Z * Z)
    (type : String.string) (s : InputState) (element : Handle) (w : World) :
  m_hovering s = true ->
  pos <> oldPos ->
  sink (wpriv w) = Some element ->
  let s' := fst (sendMouseEvent b p type s w) in
  let xy := mapPointToStreamSize (QPointF_of_QPoint pos) w in
  hoverMoveEvent pos oldPos s' w
  = Some (MouseEvent "mouse-move"%string
            (match b with OtherButton => 0 | _ => 1 end) (fst xy) (snd xy))
  /\ hoverMoveEvent pos oldPos (hoverLeaveEvent s') w = None
  /\ hoverMoveEvent pos oldPos (hoverEnterEvent (hoverLeaveEvent s')) w
     = hoverMoveEvent pos oldPos s' w.
Proof.
  intros Hhover Hpos Hsink s' xy. subst s' xy.
  unfold hoverMoveEvent, sendMouseEvent, hoverLeaveEvent, hoverEnterEvent.
  cbn [fst m_hovering m_mousePressedButton negb]. rewrite Hhover, Hsink.
  cbn [negb].
  destruct (QPoint_eq_dec pos oldPos) as [E|_]; [now elim Hpos|].
  destruct b; repeat split.
Qed.

(** *** The display size, continued *)

(** X20. Square pixels keep the frame size: for a video info with [gint]
    dimensions that are not negative and a display ratio [num/den] of
    positive [gint]s equal to width/height, the display size computed by
    [_calculate_par] is the size of the video, in each of its three
    branches. *)
Theorem _calculate_par_same_ratio (w : World) (info : GstVideoInfo) (num den : Z) :
  0 <= vi_width info <= G_MAXINT ->
  0 <= vi_height info <= G_MAXINT ->
  0 < num <= G_MAXINT ->
  0 < den <= G_MAXINT ->
  display_ratio_of (wpriv w) info = Some (num, den) ->
  vi_width info * den = vi_height info * num ->
  let p' := wpriv (snd (_calculate_par w info)) in
  display_width p' = vi_width info /\ display_height p' = vi_height info.
Proof.
  intros Hw Hh Hnum Hden Hratio Hsame p'.
  destruct (_calculate_par_branches w info num den Hw Hh Hnum Hden Hratio)
    as (_ & B1 & B2 & B3).
  fold p' in B1, B2, B3.
  assert (Qh : vi_height info * num / den = vi_width info).
  { rewrite <- Hsame. apply Z.div_mul. lia. }
  assert (Qw : vi_width info * den / num = vi_height info).
  { rewrite Hsame. apply Z.div_mul. lia. }
  rewrite Qh in B1, B3. rewrite Qw in B2.
  rewrite (to_gint_small _ Hw) in B1, B3. rewrite (to_gint_small _ Hh) in B2.
  destruct (Z.eq_dec (vi_height info mod den) 0) as [D|D].
  - destruct (B1 D). now split.
  - destruct (Z.eq_dec (vi_width info mod num) 0) as [D'|D'].
    + destruct (B2 D D'). now split.
    + destruct (B3 D D'). now split.
Qed.

(** X21. The display size has the display ratio, up to rounding down: under
    the same conditions and provided both quotients fit a [gint],
    [display_height * num - display_width * den] lies in [[0, den)]; it is 0,
    so the ratio is exact, whenever the height divides evenly by [den] or
    the width divides evenly by [num]. *)
Theorem _calculate_par_keeps_ratio (w : World) (info : GstVideoInfo) (num den : Z) :
  0 <= vi_width info <= G_MAXINT ->
  0 <= vi_height info <= G_MAXINT ->
  0 < num <= G_MAXINT ->
  0 < den <= G_MAXINT ->
  display_ratio_of (wpriv w) info = Some (num, den) ->
  vi_height info * num / den <= G_MAXINT ->
  vi_width info * den / num <= G_MAXINT ->
  let p' := wpriv (snd (_calculate_par w info)) in
  0 <= display_height p' * num - display_width p' * den < den
  /\ (vi_height info mod den = 0 \/ vi_width info mod num = 0 ->
      display_width p' * den = display_height p' * num).
Proof.
  intros Hw Hh Hnum Hden Hratio Fh Fw p'.
  destruct (_calculate_par_branches w info num den Hw Hh Hnum Hden Hratio)
    as (_ & B1 & B2 & B3).
  fold p' in B1, B2, B3.
  set (wd := vi_width info) in *. set (ht := vi_height info) in *.
  assert (Qh : 0 <= ht * num / den) by (apply Z.div_pos; nia).
  assert (Qw : 0 <= wd * den / num) by (apply Z.div_pos; nia).
  rewrite (to_gint_small (ht * num / den)) in B1, B3 by lia.
  rewrite (to_gint_small (wd * den / num)) in B2 by lia.
  pose proof (Z.div_mod (ht * num) den ltac:(lia)) as Mh.
  pose proof (Z.mod_pos_bound (ht * num) den ltac:(lia)) as Rh.
  assert (Xh : ht mod den = 0 -> (ht * num) mod den = 0).
  { intro D. rewrite Z.mul_mod by lia. rewrite D. rewrite Z.mul_0_l.
    apply Z.mod_0_l. lia. }
  assert (Xw : wd mod num = 0 -> wd * den / num * num = wd * den).
  { intro D. pose proof (Z.div_mod (wd * den) num ltac:(lia)) as Mw.
    assert ((wd * den) mod num = 0).
    { rewrite Z.mul_mod by lia. rewrite D. rewrite Z.mul_0_l.
      apply Z.mod_0_l. lia. }
    lia. }
  destruct (Z.eq_dec (ht mod den) 0) as [D|D].
  - destruct (B1 D) as [E1 E2]. rewrite E1, E2. specialize (Xh D).
    split; [lia|]. intros _. lia.
  - destruct (Z.eq_dec (wd mod num) 0) as [D'|D'].
    + destruct (B2 D D') as [E1 E2]. rewrite E1, E2. specialize (Xw D').
      split; [lia|]. intros _. lia.
    + destruct (B3 D D') as [E1 E2]. rewrite E1, E2.
      split; [lia|]. intros [F|F]; contradiction.
Qed.

End Properties.

(** ** The samples, checked *)

Example sample_negotiated_state :
  negotiated (wpriv sample_negotiated) = true
  /\ buffer (wpriv sample_negotiated) = Some 1%nat
  /\ display_width (wpriv sample_negotiated) = 1920
  /\ display_height (wpriv sample_negotiated) = 1080
  /\ fitStreamToAllocatedSize' sample_negotiated = mkRect 0 175 800 450.
Proof. vm_compute. repeat split. Qed.

(** Each paint of the samples returns the node that the next paint gets
    back, once the renderer has drawn it. *)
Example sample_nodes :
  option_map node_bind (fst (updatePaintNode' None sample_negotiated))
  = Some (sample_node 1%nat)
  /\ option_map node_bind (fst (updatePaintNode' (Some (sample_node 1%nat)) sample_playing))
     = Some (sample_node 2%nat)
  /\ option_map node_bind (fst (updatePaintNode' (Some (sample_node 2%nat)) sample_deliver3))
     = Some (sample_node 3%nat)
  /\ option_map node_bind (fst (updatePaintNode' (Some (sample_node 3%nat)) sample_deliver4))
     = Some (sample_node 4%nat).
Proof. vm_compute. repeat split. Qed.

(** Where the buffers attached by the successive paints are: after the paint
    that attaches buffer 3, buffer 1 is potentially unbound, buffer 2 is
    bound and no buffer was unreffed by the queues; the paint that attaches
    buffer 4 unrefs buffer 1. *)
Example sample_attached_buffers :
  bound_buffers (wpriv sample_paint2) = [2%nat]
  /\ potentially_unbound_buffers (wpriv sample_paint2) = [1%nat]
  /\ refs sample_paint1 = refs sample_playing
  /\ refs sample_paint2 = refs sample_deliver3
  /\ refs sample_paint3 = Unref 1%nat :: refs sample_deliver4.
Proof. vm_compute. repeat split. Qed.

(** The lag on the samples: the paints receive buffers 1, 2 and 3. *)
Lemma two_generation_lag_sample :
  bound_buffers (wpriv sample_paint1) = [1%nat]
  /\ (bound_buffers (wpriv sample_paint2) = [2%nat]
      /\ potentially_unbound_buffers (wpriv sample_paint2) = [1%nat])
  /\ (refs sample_paint3 = Unref 1%nat :: refs sample_deliver4
      /\ potentially_unbound_buffers (wpriv sample_paint3) = [2%nat]
      /\ bound_buffers (wpriv sample_paint3) = [3%nat]
      /\ ~ In 1%nat (bound_buffers (wpriv sample_paint3)
                     ++ potentially_unbound_buffers (wpriv sample_paint3))).
Proof.
  apply (two_generation_lag ref_center_rect sample_playing
           (sample_node 1%nat) (sample_node 2%nat) (sample_node 3%nat)
           1%nat 2%nat 3%nat [3%nat] [4%nat]);
    vm_compute; first [reflexivity | discriminate].
Defined.

(** Delivery before negotiation on a sample run: caps 3 are refused, then a
    buffer is delivered and a paint happens. *)
Lemma setBuffer_before_negotiation_sample :
  let acts :=
    [SceneGraphInitialized (Some (Some 101%nat)) (true, Some 102%nat, Some 103%nat);
     Producer (CallSetCaps 3%nat);
     Producer (CallSetBuffer 1%nat);
     Paint None] in
  let w := snd (run' acts sample_new) in
  never_negotiated ref_caps_is_fixed ref_video_info_from_caps ref_display_ratio
    ref_center_rect acts sample_new = true
  /\ qt_item w = true
  /\ setBuffer 5%nat w = (Some Unnegotiated, w)
  /\ buffer (wpriv w) = None
  /\ buffer (wpriv (snd (setBuffer 5%nat w))) = None.
Proof.
  split; [vm_compute; reflexivity|]. split; [vm_compute; reflexivity|].
  apply (setBuffer_before_negotiation ref_caps_is_fixed ref_video_info_from_caps
           ref_display_ratio ref_center_rect (Some 100%nat));
    vm_compute; reflexivity.
Defined.

(** Deliveries of buffers 6, 7 and 8 to the negotiated sample, which holds
    buffer 1. *)
Lemma deliver_all_keeps_last_sample :
  let r := deliver_all ([6%nat; 7%nat] ++ [8%nat]) sample_negotiated in
  fst r = [None; None; None]
  /\ buffer (wpriv (snd r)) = Some 8%nat
  /\ forall g, net_refs g (refs (snd r))
               = net_refs g (refs sample_negotiated) + holds (Some 8%nat) g
                 - holds (buffer (wpriv sample_negotiated)) g.
Proof.
  apply (deliver_all_keeps_last [6%nat; 7%nat] 8%nat sample_negotiated);
    vm_compute; reflexivity.
Defined.

(** The same buffer redrawn on the sample: the texture hands back buffer 2,
    which is the current one. *)
Lemma exchange_noop_branches_sample :
  exchange 2%nat true sample_playing
  = with_refs (Unref 2%nat :: refs sample_playing) sample_playing
  /\ bound_buffers (wpriv (exchange 2%nat true sample_playing))
     = bound_buffers (wpriv sample_playing)
  /\ potentially_unbound_buffers (wpriv (exchange 2%nat true sample_playing))
     = potentially_unbound_buffers (wpriv sample_playing)
  /\ forall n : QSGSimpleTextureNode,
       tex_getBuffer (texture n) = (Some 2%nat, true) ->
       let w' := snd (updatePaintNode' (Some n) sample_playing) in
       bound_buffers (wpriv w') = bound_buffers (wpriv sample_playing)
       /\ potentially_unbound_buffers (wpriv w')
          = potentially_unbound_buffers (wpriv sample_playing)
       /\ (w' = sample_playing
           \/ w' = with_refs (Unref 2%nat :: refs sample_playing) sample_playing).
Proof.
  apply (exchange_noop_branches ref_center_rect 2%nat true sample_playing).
  left. vm_compute. reflexivity.
Defined.

(** Caps 2 set again on the sample that negotiated them. *)
Lemma setCaps_same_caps_noop_sample :
  setCaps' 2%nat sample_playing = (true, sample_playing).
Proof.
  apply (setCaps_same_caps_noop ref_caps_is_fixed ref_video_info_from_caps
           ref_display_ratio 2%nat sample_playing);
    vm_compute; reflexivity.
Defined.

(** Caps 3 (zero dimensions) on the sample that shows buffer 3 with buffers
    2 and 1 queued. *)
Lemma setCaps_invalid_ratio_resets_sample :
  let w' := snd (setCaps' 3%nat sample_paint2) in
  fst (setCaps' 3%nat sample_paint2) = false
  /\ buffer (wpriv w') = None
  /\ bound_buffers (wpriv w') = []
  /\ potentially_unbound_buffers (wpriv w') = []
  /\ negotiated (wpriv w') = false
  /\ refs w' = rev (map Unref (bound_buffers (wpriv sample_paint2)))
               ++ rev (map Unref (potentially_unbound_buffers (wpriv sample_paint2)))
               ++ match buffer (wpriv sample_paint2) with
                  | Some b => [Unref b]
                  | None => []
                  end ++ refs sample_paint2
  /\ display_width (wpriv w') = display_width (wpriv sample_paint2)
  /\ display_height (wpriv w') = display_height (wpriv sample_paint2)
  /\ v_info (wpriv w') = v_info (wpriv sample_paint2)
  /\ forall b, setBuffer b w' = (Some Unnegotiated, w').
Proof.
  apply (setCaps_invalid_ratio_resets ref_caps_is_fixed ref_video_info_from_caps
           ref_display_ratio 3%nat (mkVideoInfo 0 0 1 1) sample_paint2);
    vm_compute; first [reflexivity | discriminate].
Defined.

(** C2, as stated, fails: on the sample that shows buffer 3 with buffers 2
    and 1 queued under caps 2, [setCaps] with caps 3 returns [FALSE] because
    the ratio cannot be computed, and the state is not the previous one: the
    current buffer, both queues and the stored caps have changed. *)
Lemma setCaps_failure_changes_state :
  fst (setCaps' 3%nat sample_paint2) = false
  /\ ref_video_info_from_caps 3%nat = Some (mkVideoInfo 0 0 1 1)
  /\ display_ratio_of ref_display_ratio (wpriv sample_paint2) (mkVideoInfo 0 0 1 1) = None
  /\ buffer (wpriv sample_paint2) = Some 3%nat
  /\ buffer (wpriv (snd (setCaps' 3%nat sample_paint2))) = None
  /\ bound_buffers (wpriv sample_paint2) = [2%nat]
  /\ bound_buffers (wpriv (snd (setCaps' 3%nat sample_paint2))) = []
  /\ potentially_unbound_buffers (wpriv sample_paint2) = [1%nat]
  /\ potentially_unbound_buffers (wpriv (snd (setCaps' 3%nat sample_paint2))) = []
  /\ caps (wpriv sample_paint2) = Some 2%nat
  /\ caps (wpriv (snd (setCaps' 3%nat sample_paint2))) = Some 3%nat
  /\ snd (setCaps' 3%nat sample_paint2) <> sample_paint2.
Proof.
  do 11 (split; [vm_compute; reflexivity|]).
  intro E. apply (f_equal (fun w => buffer (wpriv w))) in E.
  vm_compute in E. discriminate E.
Qed.

(** The display size of a 720x576 video with pixel aspect ratio 16/15: the
    ratio is 4/3, and 576 divides evenly by 3. *)
Lemma _calculate_par_display_size_sample :
  let info := mkVideoInfo 720 576 16 15 in
  let p' := wpriv (snd (_calculate_par' sample_new info)) in
  display_ratio_of ref_display_ratio (wpriv sample_new) info = Some (4, 3)
  /\ fst (_calculate_par' sample_new info) = true
  /\ (576 mod 3 = 0 ->
      display_height p' = 576
      /\ (576 * 4 / 3 <= G_MAXINT -> display_width p' = 576 * 4 / 3))
  /\ (576 mod 3 <> 0 -> 720 mod 4 = 0 ->
      display_width p' = 720
      /\ (720 * 3 / 4 <= G_MAXINT -> display_height p' = 720 * 3 / 4))
  /\ (576 mod 3 <> 0 -> 720 mod 4 <> 0 ->
      display_height p' = 576
      /\ (576 * 4 / 3 <= G_MAXINT -> display_width p' = 576 * 4 / 3)).
Proof.
  split; [vm_compute; reflexivity|].
  apply (_calculate_par_display_size ref_display_ratio sample_new
           (mkVideoInfo 720 576 16 15) 4 3);
    first [ vm_compute; reflexivity | unfold G_MAXINT; simpl; lia ].
Defined.

(** The sample's display size is 768x576. *)
Example _calculate_par_sample_size :
  let p' := wpriv (snd (_calculate_par' sample_new (mkVideoInfo 720 576 16 15))) in
  display_width p' = 768 /\ display_height p' = 576.
Proof. vm_compute. split; reflexivity. Qed.

(** C4, as stated, fails: for a 1048576x1048576 video with pixel aspect
    ratio 4095/1 the ratio is 4095/1, the height divides evenly by 1, and
    the display width is not [height * num / den] = 4293918720, which does
    not fit a [gint], but -1048576. *)
Lemma display_width_wraps :
  let info := mkVideoInfo 1048576 1048576 4095 1 in
  let p' := wpriv (snd (_calculate_par' sample_new info)) in
  display_ratio_of ref_display_ratio (wpriv sample_new) info = Some (4095, 1)
  /\ 1048576 mod 1 = 0
  /\ 1048576 * 4095 / 1 = 4293918720
  /\ display_width p' = -1048576
  /\ fst (setCaps' 4%nat sample_new) = true
  /\ display_width (wpriv (snd (setCaps' 4%nat sample_new))) = -1048576
  /\ display_width p' <> 1048576 * 4095 / 1.
Proof.
  do 6 (split; [vm_compute; reflexivity|]).
  vm_compute. discriminate.
Qed.

(** The corners of the letterboxed rectangle of the sample (1920x1080 shown
    in 800x800: 800x450 at (0, 175)). *)
Lemma mapPointToStreamSize_corners_sample :
  fitStreamToAllocatedSize' sample_negotiated = mkRect 0 175 800 450
  /\ point_eq (mapPointToStreamSize' (0%Q, 175%Q) sample_negotiated) (0%Q, 0%Q)
  /\ point_eq (mapPointToStreamSize' (800%Q, 175%Q) sample_negotiated) (1920%Q, 0%Q)
  /\ point_eq (mapPointToStreamSize' (0%Q, 625%Q) sample_negotiated) (0%Q, 1080%Q)
  /\ point_eq (mapPointToStreamSize' (800%Q, 625%Q) sample_negotiated) (1920%Q, 1080%Q).
Proof.
  split; [vm_compute; reflexivity|].
  apply (mapPointToStreamSize_corners ref_center_rect sample_negotiated);
    vm_compute; first [reflexivity | discriminate].
Defined.

(** A point to the right of and above the sample's rectangle. *)
Lemma mapPointToStreamSize_guarded_sample :
  let result := fitStreamToAllocatedSize' sample_negotiated in
  let p := mapPointToStreamSize' (1000%Q, (-5)%Q) sample_negotiated in
  (rect_w result <= 0 -> fst p = 0%Q)
  /\ (rect_h result <= 0 -> snd p = 0%Q)
  /\ (0 <= fst p <= inject_Z (vi_width (v_info (wpriv sample_negotiated))))%Q
  /\ (0 <= snd p <= inject_Z (vi_height (v_info (wpriv sample_negotiated))))%Q.
Proof.
  apply (mapPointToStreamSize_guarded ref_center_rect (1000%Q, (-5)%Q) sample_negotiated);
    vm_compute; discriminate.
Defined.

(** ** The further properties on the samples *)

Lemma setCaps_repeated_sample :
  fst (setCaps' 2%nat sample_new) = true
  /\ setCaps' 2%nat (snd (setCaps' 2%nat sample_new))
     = (true, snd (setCaps' 2%nat sample_new)).
Proof.
  split; [vm_compute; reflexivity|].
  apply (setCaps_repeated ref_caps_is_fixed ref_video_info_from_caps
           ref_display_ratio 2%nat sample_new).
  vm_compute. reflexivity.
Defined.

Lemma setCaps_invalid_ratio_stores_caps_sample :
  let w' := snd (setCaps' 3%nat sample_paint2) in
  caps (wpriv w') = Some 3%nat
  /\ setCaps' 3%nat w' = (true, w')
  /\ negotiated (wpriv w') = false.
Proof.
  apply (setCaps_invalid_ratio_stores_caps ref_caps_is_fixed
           ref_video_info_from_caps ref_display_ratio 3%nat
           (mkVideoInfo 0 0 1 1) sample_paint2);
    vm_compute; first [reflexivity | discriminate].
Defined.

(** Caps 1 (320x240) on the sample that shows buffer 3 with buffers 2 and 1
    queued; the accounting is that of buffer 3. *)
Lemma setCaps_renegotiates_sample :
  let w' := snd (setCaps' 1%nat sample_paint2) in
  fst (setCaps' 1%nat sample_paint2) = true
  /\ negotiated (wpriv w') = true
  /\ caps (wpriv w') = Some 1%nat
  /\ v_info (wpriv w') = mkVideoInfo 320 240 1 1
  /\ implicitWidth (item w') = 320
  /\ implicitHeight (item w') = 240
  /\ buffer (wpriv w') = None
  /\ bound_buffers (wpriv w') = []
  /\ potentially_unbound_buffers (wpriv w') = []
  /\ net_refs 3%nat (refs w') = net_refs 3%nat (refs sample_paint2) - owned sample_paint2 3%nat
  /\ forall b, fst (setBuffer b w') = None
               /\ buffer (wpriv (snd (setBuffer b w'))) = Some b.
Proof.
  apply (setCaps_renegotiates ref_caps_is_fixed ref_video_info_from_caps
           ref_display_ratio 1%nat (mkVideoInfo 320 240 1 1) 4 3 sample_paint2 3%nat);
    vm_compute; first [reflexivity | discriminate].
Defined.

Lemma mapPointToStreamSize_monotone_sample :
  ((100 <= 300)%Q ->
   (fst (mapPointToStreamSize' (100%Q, 200%Q) sample_negotiated)
    <= fst (mapPointToStreamSize' (300%Q, 250%Q) sample_negotiated))%Q)
  /\ ((200 <= 250)%Q ->
      (snd (mapPointToStreamSize' (100%Q, 200%Q) sample_negotiated)
       <= snd (mapPointToStreamSize' (300%Q, 250%Q) sample_negotiated))%Q).
Proof.
  apply (mapPointToStreamSize_monotone ref_center_rect 100%Q 300%Q 200%Q 250%Q
           sample_negotiated);
    vm_compute; discriminate.
Defined.

(** A point left of and below the sample's rectangle. *)
Lemma mapPointToStreamSize_outside_sample :
  let p := mapPointToStreamSize' ((-20)%Q, 700%Q) sample_negotiated in
  (((-20) <= inject_Z 0)%Q -> (fst p == 0)%Q)
  /\ ((inject_Z (0 + 800) <= (-20))%Q -> (fst p == inject_Z 1920)%Q)
  /\ ((700 <= inject_Z 175)%Q -> (snd p == 0)%Q)
  /\ ((inject_Z (175 + 450) <= 700)%Q -> (snd p == inject_Z 1080)%Q).
Proof.
  apply (mapPointToStreamSize_outside ref_center_rect (-20)%Q 700%Q sample_negotiated);
    vm_compute; first [reflexivity | discriminate].
Defined.

Lemma initWinSys_provides_contexts_sample :
  let w' := snd (initWinSys (Some 104%nat) true sample_wrapped) in
  (exists d, getDisplay w' = Some d)
  /\ (exists o, getQtContext w' = Some o)
  /\ (exists c, getContext w' = Some c)
  /\ (qt_context (wpriv sample_wrapped) <> None ->
      forall nc ok, initWinSys nc ok w' = (true, w')).
Proof.
  apply (initWinSys_provides_contexts (Some 104%nat) true sample_wrapped).
  vm_compute. reflexivity.
Defined.

Lemma deliver_all_dropped_sample :
  snd (deliver_all [1%nat; 2%nat] sample_new) = sample_new
  /\ Forall (fun r => r <> None) (fst (deliver_all [1%nat; 2%nat] sample_new)).
Proof.
  apply (deliver_all_dropped [1%nat; 2%nat] sample_new).
  right. vm_compute. reflexivity.
Defined.

Lemma deliver_all_posts_updates_sample :
  let w' := snd (deliver_all [6%nat; 7%nat; 8%nat] sample_negotiated) in
  update_posted (item w') = (update_posted (item sample_negotiated) + 3)%nat
  /\ bound_buffers (wpriv w') = bound_buffers (wpriv sample_negotiated)
  /\ potentially_unbound_buffers (wpriv w')
     = potentially_unbound_buffers (wpriv sample_negotiated).
Proof.
  apply (deliver_all_posts_updates [6%nat; 7%nat; 8%nat] sample_negotiated);
    vm_compute; reflexivity.
Defined.

Lemma mouse_events_in_stream_sample :
  (forall b pos type s e,
     snd (sendMouseEvent' b pos type s sample_with_sink) = Some e ->
     in_stream sample_with_sink e)
  /\ (forall pos oldPos s e,
        hoverMoveEvent' pos oldPos s sample_with_sink = Some e ->
        in_stream sample_with_sink e).
Proof.
  apply (mouse_events_in_stream ref_center_rect sample_with_sink);
    vm_compute; discriminate.
Defined.

(** A left press in the middle of the sample is sent as a
    "mouse-button-press" with button 1 at (960, 540) of the stream. *)
Example sendMouseEvent_sample :
  snd (sendMouseEvent' LeftButton (400, 400) "press"%string sample_input
         sample_with_sink)
  = Some (MouseEvent "mouse-button-press"%string 1
            (fst (mapPointToStreamSize' (400%Q, 400%Q) sample_with_sink))
            (snd (mapPointToStreamSize' (400%Q, 400%Q) sample_with_sink)))
  /\ point_eq (mapPointToStreamSize' (400%Q, 400%Q) sample_with_sink)
       (960%Q, 540%Q).
Proof. split; [reflexivity | vm_compute; split; reflexivity]. Qed.

Lemma no_sink_no_events_sample :
  (forall position delta, wheelEvent position delta sample_negotiated = None)
  /\ (forall pos oldPos s, hoverMoveEvent' pos oldPos s sample_negotiated = None)
  /\ (forall b pos type s,
        snd (sendMouseEvent' b pos type s sample_negotiated) = None
        /\ m_mousePressedButton (fst (sendMouseEvent' b pos type s sample_negotiated))
           = match b with
             | LeftButton => 1
             | RightButton => 2
             | OtherButton => 0
             end).
Proof.
  apply (no_sink_no_events ref_center_rect sample_negotiated).
  vm_compute. reflexivity.
Defined.

(** A hover move after the left button was released. *)
Lemma hover_move_after_button_sample :
  let s' := fst (sendMouseEvent' LeftButton (400, 400) "release"%string
                   sample_input sample_with_sink) in
  let xy := mapPointToStreamSize' (QPointF_of_QPoint (410, 400)) sample_with_sink in
  hoverMoveEvent' (410, 400) (400, 400) s' sample_with_sink
  = Some (MouseEvent "mouse-move"%string 1 (fst xy) (snd xy))
  /\ hoverMoveEvent' (410, 400) (400, 400) (hoverLeaveEvent s') sample_with_sink = None
  /\ hoverMoveEvent' (410, 400) (400, 400) (hoverEnterEvent (hoverLeaveEvent s'))
       sample_with_sink
     = hoverMoveEvent' (410, 400) (400, 400) s' sample_with_sink.
Proof.
  apply (hover_move_after_button ref_center_rect LeftButton (400, 400) (410, 400)
           (400, 400) "release"%string sample_input 200%nat sample_with_sink);
    first [reflexivity | intro E; discriminate E].
Defined.

Lemma _calculate_par_same_ratio_sample :
  let p' := wpriv (snd (_calculate_par' sample_new (mkVideoInfo 1920 1080 1 1))) in
  display_width p' = 1920 /\ display_height p' = 1080.
Proof.
  apply (_calculate_par_same_ratio ref_display_ratio sample_new
           (mkVideoInfo 1920 1080 1 1) 16 9);
    first [ vm_compute; reflexivity | unfold G_MAXINT; simpl; lia ].
Defined.

(** 100x100 with pixel aspect ratio 3/7: neither 100 divides by 7 nor by 3;
    the display size is 42x100 and 100 * 3 - 42 * 7 = 6. *)
Lemma _calculate_par_keeps_ratio_sample :
  let p' := wpriv (snd (_calculate_par' sample_new (mkVideoInfo 100 100 3 7))) in
  0 <= display_height p' * 3 - display_width p' * 7 < 7
  /\ (100 mod 7 = 0 \/ 100 mod 3 = 0 ->
      display_width p' * 7 = display_height p' * 3).
Proof.
  apply (_calculate_par_keeps_ratio ref_display_ratio sample_new
           (mkVideoInfo 100 100 3 7) 3 7);
    first [ vm_compute; reflexivity | unfold G_MAXINT; simpl; lia
          | vm_compute; discriminate ].
Defined.

Example _calculate_par_rounding_sample :
  let p' := wpriv (snd (_calculate_par' sample_new (mkVideoInfo 100 100 3 7))) in
  display_width p' = 42 /\ display_height p' = 100.
Proof. vm_compute. split; reflexivity. Qed.
